(** * Region trimming, playback sync and region/track state of the synAI editor

    Shallow embedding of the audio/video editor pages:
    - [Trim]: [trimAudio] of the audio trimming page (filter_complex
      construction and the sequence of FFmpeg commands it issues);
    - [Sync]: the [updateTime] tick that keeps the video element locked to
      the multitrack clock;
    - [Regions]: [addRegion], [updateRegionTime], [deleteRegion] and
      [clearAllRegions] of the subtitle-region manager;
    - [Tracks]: [updateTrackVolume] and the ['start-position-change']
      handler of the track list.

    JavaScript numbers are modelled as rationals [Q]; [Math.min] and
    [Math.max] as [Qmin] and [Qmax]. *)

From Stdlib Require Import QArith Qminmax Qabs Qround.
From Stdlib Require Import Arith NArith String Ascii List Bool Lia.
Import ListNotations.

Open Scope Q_scope.

(** ** Generic helper: [Array.prototype.map] with the index argument *)

Fixpoint mapi_from {A B : Type} (f : nat -> A -> B) (i : nat) (l : list A)
  : list B :=
  match l with
  | [] => []
  | x :: t => f i x :: mapi_from f (S i) t
  end.

Definition mapi {A B : Type} (f : nat -> A -> B) (l : list A) : list B :=
  mapi_from f 0 l.

(** ** Audio trimming page: [trimAudio] *)

Module Trim.

(** Region as kept in the page state: [{ id; start; end }]. *)
Record Region := mkRegion {
  id : string;
  start : Q;
  end_ : Q
}.

(** One [filterParts] entry:
    [[0:a]atrim=start=S:end=E,asetpts=PTS-STARTPTS[a<index>]]. *)
Inductive FilterPart :=
| Atrim (s e : Q) (label : nat).

(** The [filter_complex] argument: the [filterParts] joined by [;], then
    the [concatInputs] labels [[a0][a1]...] and [concat=n=N:v=0:a=1[out]]. *)
Record FilterComplex := mkFilterComplex {
  filter_parts : list FilterPart;
  concat_inputs : list nat;
  concat_n : nat
}.

Definition filterParts (regions : list Region) : list FilterPart :=
  mapi (fun index region => Atrim (start region) (end_ region) index)
    regions.

Definition concatInputs (regions : list Region) : list nat :=
  mapi (fun index _ => index) regions.

Definition filterComplex (regions : list Region) : FilterComplex :=
  mkFilterComplex (filterParts regions) (concatInputs regions)
    (length regions).

(** The effects [trimAudio] performs, in program order. *)
Inductive Cmd :=
| SetError (msg : string)
| InitFFmpeg
| SetIsProcessing (b : bool)
| WriteFile (name : string)
| Exec (args : list string) (fc : FilterComplex)
| ReadFile (name : string)
| SetTrimmedAudioUrl
| DeleteFile (name : string).

(** The part of the page state [trimAudio] reads. *)
Record State := mkState {
  selectedFile : bool;        (* [selectedFile !== null] *)
  regions : list Region;
  ffmpegLoaded : bool;        (* [ffmpegRef.current !== null] *)
  isProcessing : bool
}.

Definition msg_select : string :=
  "Please select an audio file and create regions to trim".
Definition msg_load : string := "Failed to load audio processor".
Definition msg_init : string := "Failed to initialize audio processor".
Definition msg_trim : string := "Failed to trim audio".

(** How far the [try] block of [trimAudio] gets: the first awaited call
    that rejects, or none. *)
Inductive TryOutcome :=
| FetchFails          (* [fetchFile(selectedFile)] rejects: [writeFile] is not called *)
| WriteFails          (* [ffmpeg.writeFile('input.wav', ...)] rejects *)
| ExecFails           (* [ffmpeg.exec(...)] rejects *)
| ReadFails           (* [ffmpeg.readFile('output.wav')] rejects, as after a
                         run that wrote no output *)
| DeleteInputFails    (* [ffmpeg.deleteFile('input.wav')] rejects *)
| DeleteOutputFails   (* [ffmpeg.deleteFile('output.wav')] rejects *)
| TryOk.

Definition exec_args : list string :=
  ["-i"; "input.wav"; "-filter_complex"; "<filterComplex>";
   "-map"; "[out]"; "output.wav"]%string.

(** The calls of the [try] block up to the one that rejects (a rejecting
    call is still made), then the [catch] block's error. The filter
    ([filterParts], [concatInputs], [filterComplex]) is built between
    [writeFile] and [exec] and cannot throw. *)
Definition tryBlock (fc : FilterComplex) (r : TryOutcome) : list Cmd :=
  let wr := WriteFile "input.wav" in
  let ex := Exec exec_args fc in
  let rd := ReadFile "output.wav" in
  let del_in := DeleteFile "input.wav" in
  let del_out := DeleteFile "output.wav" in
  match r with
  | FetchFails => [SetError msg_trim]
  | WriteFails => [wr; SetError msg_trim]
  | ExecFails => [wr; ex; SetError msg_trim]
  | ReadFails => [wr; ex; rd; SetError msg_trim]
  | DeleteInputFails => [wr; ex; rd; SetTrimmedAudioUrl; del_in; SetError msg_trim]
  | DeleteOutputFails =>
      [wr; ex; rd; SetTrimmedAudioUrl; del_in; del_out; SetError msg_trim]
  | TryOk => [wr; ex; rd; SetTrimmedAudioUrl; del_in; del_out]
  end.

(** [trimAudio], with [init_ok] the outcome of [ffmpeg.load] (when the
    processor is not loaded yet) and [r] how far its [try] block gets;
    the [finally] block clears the processing flag. *)
Definition trimAudio (st : State) (init_ok : bool) (r : TryOutcome) : list Cmd :=
  if negb (selectedFile st) || (length (regions st) =? 0)%nat then
    [SetError msg_select]
  else
    let init :=
      if ffmpegLoaded st then []
      else if init_ok then [InitFFmpeg]
      else [InitFFmpeg; SetError msg_load] in
    if negb (ffmpegLoaded st) && negb init_ok then
      init ++ [SetError msg_init]
    else
      init ++
      [SetIsProcessing true; SetError EmptyString] ++
      tryBlock (filterComplex (regions st)) r ++
      [SetIsProcessing false].

(** The Trim button: [onClick={trimAudio}] with [disabled={isProcessing}];
    a disabled button delivers no click. *)
Definition trimButtonClick (st : State) (init_ok : bool) (r : TryOutcome)
  : list Cmd :=
  if isProcessing st then [] else trimAudio st init_ok r.

Definition is_exec (c : Cmd) : bool :=
  match c with Exec _ _ => true | _ => false end.

End Trim.

(** ** Video/multitrack clock sync: the [updateTime] tick *)

Module Sync.

(** [drift > 0.2] on JavaScript numbers. *)
Definition Qgt_bool (x y : Q) : bool := negb (Qle_bool x y).

Definition drift_threshold : Q := 2 # 10.

(** What one tick reads and writes: the [isCancelled] flag of the effect,
    whether [multitrackRef.current] is set, the video element's
    [currentTime] ([None] when [videoRef.current] is null) and the
    [currentTime] shown in the UI. *)
Record State := mkState {
  isCancelled : bool;
  multitrackRef : bool;
  video : option Q;
  uiTime : Q
}.

(** [updateTime], with [time] the value returned by
    [multitrack.getCurrentTime()]. *)
Definition updateTime (time : Q) (st : State) : State :=
  if isCancelled st || negb (multitrackRef st) then st
  else
    let st1 := mkState (isCancelled st) (multitrackRef st) (video st) time in
    match video st with
    | None => st1
    | Some vt =>
        let drift := Qabs (vt - time) in
        if Qgt_bool drift drift_threshold
        then mkState (isCancelled st) (multitrackRef st) (Some time) time
        else st1
    end.

End Sync.

(** ** Track list: volume slider and the position-change handler *)

Module Tracks.

Record Track := mkTrack {
  id : nat;
  name : string;
  volume : Q;
  startPosition : Q;
  draggable : bool;
  envelope : list (Q * Q)
}.

Definition initialTracks : list Track :=
  [ mkTrack 0 "Video Audio" 1 0 false [];
    mkTrack 1 "Song 1" (8 # 10) 0 true [];
    mkTrack 2 "Song 2" (8 # 10) 0 true [] ].

Definition set_volume (v : Q) (t : Track) : Track :=
  mkTrack (id t) (name t) v (startPosition t) (draggable t) (envelope t).


(** The React-state part of [updateTrackVolume]:
    [setTracks(prev => prev.map(t => t.id === trackId ? {...t, volume} : t))].
    The same [volume] is then handed, unchanged, to whichever engine
    instance the function finds. *)
Definition updateTrackVolume (trackId : nat) (v : Q) (tracks : list Track)
  : list Track :=
  map (fun t => if Nat.eqb (id t) trackId then set_volume v t else t) tracks.


Definition find_track (tid : nat) (tracks : list Track) : option Track :=
  find (fun t => Nat.eqb (id t) tid) tracks.




End Tracks.

(** ** Subtitle regions of the video editor *)

Module Regions.

(** Decimal rendering of a non-negative integer, as in a template
    literal [`region-${Date.now()}`]. *)
Fixpoint digits_aux (fuel : nat) (n : N) (acc : string) : string :=
  match fuel with
  | O => acc
  | S f =>
      let acc' := String (ascii_of_N (48 + N.modulo n 10)) acc in
      if N.ltb n 10 then acc' else digits_aux f (N.div n 10) acc'
  end.

Definition N_to_string (n : N) : string :=
  digits_aux (S (N.size_nat n)) n EmptyString.

(** Region of the React state ([Region] interface). *)
Record Region := mkRegion {
  id : string;
  start : Q;
  end_ : Q;
  content : string;
  color : string
}.

(** Region object held by the regions plugin; [getRegions()] lists them
    in insertion order. *)
Record PRegion := mkPRegion {
  pid : string;
  pstart : Q;
  pend : Q;
  pcontent : string;
  pcolor : string
}.

(** Page state touched by the region operations. [plugin] is
    [regionsPluginRef.current] ([None] when null) with its regions. *)
Record State := mkState {
  plugin : option (list PRegion);
  regions : list Region;
  selectedRegion : option string;
  currentTime : Q;
  duration : Q
}.

Inductive Outcome :=
| Done
| AlertNotReady (msg : string).

Definition msg_not_ready : string :=
  "Please wait for the video to load completely.".

Definition colors : list string :=
  [ "rgba(200, 50, 50, 0.5)"; "rgba(50, 200, 50, 0.5)";
    "rgba(50, 50, 200, 0.5)"; "rgba(200, 200, 50, 0.5)";
    "rgba(200, 50, 200, 0.5)"; "rgba(50, 200, 200, 0.5)" ]%string.

(** [colors[Math.floor(r * colors.length)]] for the draw [r] of
    [Math.random()]; an index out of range reads [undefined]. *)
Definition pick_color (r : Q) : string :=
  nth (Z.to_nat (Qfloor (r * inject_Z (Z.of_nat (length colors)))))
    colors "undefined"%string.

Definition default_length : Q := 10.

Definition regionIdOf (now : N) : string :=
  ("region-" ++ N_to_string now)%string.

(** [addRegion], with [now] the value of [Date.now()] and [r] the value
    of [Math.random()]. *)
Definition addRegion (now : N) (r : Q) (st : State) : Outcome * State :=
  match plugin st with
  | None => (AlertNotReady msg_not_ready, st)
  | Some ps =>
      let regionId := regionIdOf now in
      let s := currentTime st in
      let e := Qmin (s + default_length) (duration st) in
      let c := "New subtitle"%string in
      let col := pick_color r in
      (Done,
       mkState (Some (ps ++ [mkPRegion regionId s e c col]))
         (regions st ++ [mkRegion regionId s e c col])
         (selectedRegion st) (currentTime st) (duration st))
  end.

Definition pid_is (rid : string) (p : PRegion) : bool :=
  String.eqb (pid p) rid.

(** [regions.find(r => r.id === regionId)] followed by a method call on
    the region found: only the first match is touched. *)
Fixpoint update_first (rid : string) (f : PRegion -> PRegion)
  (ps : list PRegion) : list PRegion :=
  match ps with
  | [] => []
  | p :: t => if pid_is rid p then f p :: t else p :: update_first rid f t
  end.

Fixpoint remove_first (rid : string) (ps : list PRegion) : list PRegion :=
  match ps with
  | [] => []
  | p :: t => if pid_is rid p then t else p :: remove_first rid t
  end.

Definition set_ptimes (s e : Q) (p : PRegion) : PRegion :=
  mkPRegion (pid p) s e (pcontent p) (pcolor p).

Definition set_times (s e : Q) (r : Region) : Region :=
  mkRegion (id r) s e (content r) (color r).

(** [updateRegionTime]. *)
Definition updateRegionTime (regionId : string) (s e : Q) (st : State)
  : State :=
  match plugin st with
  | None => st
  | Some ps =>
      match find (pid_is regionId) ps with
      | None => st
      | Some _ =>
          let validStart := Qmax 0 (Qmin s (duration st)) in
          let validEnd := Qmax validStart (Qmin e (duration st)) in
          mkState
            (Some (update_first regionId (set_ptimes validStart validEnd) ps))
            (map (fun r => if String.eqb (id r) regionId
                           then set_times validStart validEnd r else r)
               (regions st))
            (selectedRegion st) (currentTime st) (duration st)
      end
  end.

(** [deleteRegion]. *)
Definition deleteRegion (regionId : string) (st : State) : State :=
  match plugin st with
  | None => st
  | Some ps =>
      match find (pid_is regionId) ps with
      | None => st
      | Some _ =>
          mkState (Some (remove_first regionId ps))
            (filter (fun r => negb (String.eqb (id r) regionId)) (regions st))
            (match selectedRegion st with
             | Some sel => if String.eqb sel regionId then None else Some sel
             | None => None
             end)
            (currentTime st) (duration st)
      end
  end.

(** [clearAllRegions]. *)
Definition clearAllRegions (st : State) : State :=
  match plugin st with
  | None => st
  | Some _ => mkState (Some []) [] None (currentTime st) (duration st)
  end.

Definition set_pcontent (c : string) (p : PRegion) : PRegion :=
  mkPRegion (pid p) (pstart p) (pend p) c (pcolor p).

(** The subtitle text input and the ['region-clicked'] prompt: set the
    content of the plugin region (if found) and of the state region. *)
Definition editContent (regionId c : string) (st : State) : State :=
  mkState
    (match plugin st with
     | None => None
     | Some ps => Some (update_first regionId (set_pcontent c) ps)
     end)
    (map (fun r => if String.eqb (id r) regionId
                   then mkRegion (id r) (start r) (end_ r) c (color r) else r)
       (regions st))
    (selectedRegion st) (currentTime st) (duration st).

(** Everything else that writes this state: the multitrack setup
    attaching a freshly created regions plugin, the effect cleanup
    clearing [regionsPluginRef], [handleReset], the [updateTime] tick and
    the [loadedmetadata] handler. *)
Inductive Event :=
| EvAdd (now : N) (r : Q)
| EvUpdate (regionId : string) (s e : Q)
| EvDelete (regionId : string)
| EvClear
| EvEdit (regionId c : string)
| EvAttachPlugin
| EvDetachPlugin
| EvReset
| EvTime (t : Q)
| EvDuration (d : Q).

Definition step (ev : Event) (st : State) : State :=
  match ev with
  | EvAdd now r => snd (addRegion now r st)
  | EvUpdate rid s e => updateRegionTime rid s e st
  | EvDelete rid => deleteRegion rid st
  | EvClear => clearAllRegions st
  | EvEdit rid c => editContent rid c st
  | EvAttachPlugin =>
      mkState (Some []) (regions st) (selectedRegion st) (currentTime st)
        (duration st)
  | EvDetachPlugin =>
      mkState None (regions st) (selectedRegion st) (currentTime st)
        (duration st)
  | EvReset => mkState None [] None 0 0
  | EvTime t =>
      mkState (plugin st) (regions st) (selectedRegion st) t (duration st)
  | EvDuration d =>
      mkState (plugin st) (regions st) (selectedRegion st) (currentTime st) d
  end.

Definition initState : State := mkState None [] None 0 0.

End Regions.

(** ** File selection and upload (video and audio pages) *)

Module Upload.

(** A browser [File]: its [name], MIME [type] and [size] in bytes. *)
Record File := mkFile {
  fname : string;
  ftype : string;
  fsize : N
}.

Inductive Validation :=
| Valid
| Invalid (msg : string).

Definition VALID_VIDEO_TYPES : list string :=
  [ "video/mp4"; "video/quicktime"; "video/x-msvideo"; "video/x-matroska" ]%string.

Definition VALID_AUDIO_TYPES : list string :=
  [ "audio/mp3"; "audio/mpeg"; "audio/wav"; "audio/ogg"; "audio/m4a";
    "audio/aac"; "audio/webm" ]%string.

(** [Array.prototype.includes] on strings. *)
Definition includes (l : list string) (s : string) : bool :=
  existsb (String.eqb s) l.

Definition msg_video_type : string :=
  "Invalid file type. Please upload MP4, MOV, AVI, or MKV.".
Definition msg_video_size : string :=
  "File is too large. Maximum size is 320MB.".
Definition msg_audio_type : string :=
  "Invalid file type. Please upload MP3, WAV, OGG, M4A, AAC, or WEBM.".
Definition msg_audio_size : string :=
  "File is too large. Maximum size is 50MB.".

(** [validateVideo]: the [setError] it performs is the [Invalid] message. *)
Definition validateVideo (file : File) : Validation :=
  if negb (includes VALID_VIDEO_TYPES (ftype file)) then Invalid msg_video_type
  else
    let maxSize := (320 * 1024 * 1024)%N in
    if (maxSize <? fsize file)%N then Invalid msg_video_size else Valid.

(** [validateAudio]. *)
Definition validateAudio (file : File) : Validation :=
  if negb (includes VALID_AUDIO_TYPES (ftype file)) then Invalid msg_audio_type
  else
    let maxSize := (50 * 1024 * 1024)%N in
    if (maxSize <? fsize file)%N then Invalid msg_audio_size else Valid.

(** The upload part of either page's state; [mediaUrl] is [videoUrl] on the
    video page and [audioUrl] on the audio page. *)
Record State := mkState {
  selectedFile : option File;
  uploadSuccess : bool;
  error : string;
  mediaUrl : option string
}.

(** [handleFileSelect] of both pages, for the page's validator; [file] is
    [event.target.files?.[0]] and [url] the object URL that
    [URL.createObjectURL(file)] returns. *)
Definition handleFileSelect (validate : File -> Validation)
  (file : option File) (url : string) (st : State) : State :=
  match file with
  | None => st
  | Some f =>
      match validate f with
      | Invalid m => mkState (selectedFile st) (uploadSuccess st) m (mediaUrl st)
      | Valid => mkState (Some f) (uploadSuccess st) EmptyString (Some url)
      end
  end.

Definition msg_no_video : string := "Please select a video file".
Definition msg_no_audio : string := "Please select an audio file".

(** [handleUpload] of both pages (the 3-second [setTimeout] that hides the
    success message is a later, separate event). *)
Definition handleUpload (msg_none : string) (st : State) : State :=
  match selectedFile st with
  | None => mkState None (uploadSuccess st) msg_none (mediaUrl st)
  | Some f => mkState (Some f) true EmptyString (mediaUrl st)
  end.

Definition initState : State := mkState None false EmptyString None.

End Upload.

(** ** Playback controls and polling of the video page *)

Module Playback.

(** The multitrack engine as the page sees it: whether it exposes
    [isPlaying] and whether it is playing. *)
Record Engine := mkEngine {
  has_isPlaying : bool;
  playing : bool
}.

Record Controls := mkControls {
  engine : option Engine;      (* [multitrackRef.current] *)
  uiPlaying : bool             (* [isPlaying] state *)
}.

(** [togglePlayPause]. *)
Definition togglePlayPause (c : Controls) : Controls :=
  match engine c with
  | None => c
  | Some e =>
      if has_isPlaying e && playing e
      then mkControls (Some (mkEngine (has_isPlaying e) false)) false
      else mkControls (Some (mkEngine (has_isPlaying e) true)) true
  end.

(** [skipTime]: the argument passed to [multitrack.setTime], if any. *)
Definition skipTime (engine_present : bool) (currentTime duration seconds : Q)
  : option Q :=
  if engine_present
  then Some (Qmax 0 (Qmin duration (currentTime + seconds)))
  else None.

(** State of the [checkPlayState] poller: the effect's [isCancelled], the
    closure variable [wasPlaying], the [isPlaying] UI state and the video
    element's [paused] flag ([None] when [videoRef.current] is null). *)
Record Poll := mkPoll {
  cancelled : bool;
  wasPlaying : bool;
  pollUi : bool;
  videoPaused : option bool
}.

(** One [checkPlayState] tick, with [playing] the value of
    [multitrack.isPlaying?.() || false] and [play_ok] whether the video's
    [play()] promise resolves (a rejection is ignored and leaves it paused). *)
Definition checkPlayState (playing play_ok : bool) (p : Poll) : Poll :=
  if cancelled p then p
  else if Bool.eqb playing (wasPlaying p) then p
  else
    let v :=
      match videoPaused p with
      | None => None
      | Some paused =>
          if playing && paused then Some (negb play_ok)
          else if negb playing && negb paused then Some true
          else Some paused
      end in
    mkPoll (cancelled p) playing playing v.

(** State of [checkAllTracksReady]: the closure counters of one multitrack
    setup, the [tracksReady] state, and how many times the 500 ms timer that
    sets [regionsPluginRef] has been scheduled. *)
Record Loading := mkLoading {
  tracksLoaded : nat;
  regionsPluginReady : bool;
  tracksReady : bool;
  pluginTimers : nat
}.

Definition totalTracks : nat := 3.

(** One ['canplay'] event. *)
Definition checkAllTracksReady (l : Loading) : Loading :=
  let n := S (tracksLoaded l) in
  let '(ready, timers) :=
    if Nat.eqb n 1%nat && negb (regionsPluginReady l)
    then (true, S (pluginTimers l))
    else (regionsPluginReady l, pluginTimers l) in
  mkLoading n ready (if Nat.eqb n totalTracks then true else tracksReady l)
    timers.

Definition setupLoading (ready : bool) : Loading := mkLoading 0 false ready 0.

Fixpoint canplay_n (k : nat) (l : Loading) : Loading :=
  match k with
  | O => l
  | S k' => canplay_n k' (checkAllTracksReady l)
  end.

(** [formatTime]. [%] on numbers truncates toward zero. *)
Definition Qtrunc (x : Q) : Z :=
  if Qle_bool 0 x then Qfloor x else Qceiling x.

Definition js_mod (x y : Q) : Q := x - y * inject_Z (Qtrunc (x / y)).

(** [Number.prototype.toString] on an integral value. *)
Definition Z_to_string (z : Z) : string :=
  if (z <? 0)%Z then ("-" ++ Regions.N_to_string (Z.to_N (- z)))%string
  else Regions.N_to_string (Z.to_N z).

(** [padStart(2, '0')]. *)
Definition padStart2 (s : string) : string :=
  match String.length s with
  | O => "00"
  | S O => String "0" s
  | _ => s
  end%string.

Definition formatTime (seconds : Q) : string :=
  let mins := Qfloor (seconds / 60) in
  let secs := Qfloor (js_mod seconds 60) in
  (Z_to_string mins ++ ":" ++ padStart2 (Z_to_string secs))%string.

End Playback.

(** ** [resetUpload] of the video page *)

Module VideoReset.

Record Page := mkPage {
  multitrack : option Playback.Engine;   (* [multitrackRef.current] *)
  videoElement : bool;                   (* [videoRef.current !== null] *)
  videoUrl : option string;
  upload : Upload.State;
  isPlaying : bool;
  currentTime : Q;
  duration : Q;
  tracksReady : bool;
  tracks : list Tracks.Track;
  regions : list Regions.Region;
  selectedRegion : option string;
  regionsPlugin : option (list Regions.PRegion)
}.

(** Calls [resetUpload] makes on engines, elements and URLs, in order. *)
Inductive Cmd :=
| EngPause
| EngDestroy
| VidPause
| VidSeek0
| VidClearSrc
| VidLoad
| RevokeUrl (u : string)
| ClearTrackRefs
| ScheduleClearVideoUrl      (* [setTimeout(() => setVideoUrl(null), 50)] *)
| ClearFileInput.

Definition resetUpload (p : Page) : list Cmd * Page :=
  let eng :=
    match multitrack p with
    | None => []
    | Some e =>
        (if Playback.has_isPlaying e && Playback.playing e then [EngPause]
         else []) ++ [EngDestroy]
    end in
  let vid :=
    if videoElement p then [VidPause; VidSeek0; VidClearSrc; VidLoad] else [] in
  let rev := match videoUrl p with Some u => [RevokeUrl u] | None => [] end in
  (eng ++ vid ++ rev ++ [ClearTrackRefs; ScheduleClearVideoUrl; ClearFileInput],
   mkPage None (videoElement p) (videoUrl p)
     (Upload.mkState None false EmptyString (Upload.mediaUrl (upload p)))
     false 0 0 false Tracks.initialTracks [] None None).

(** The 50 ms timer scheduled by [resetUpload]. *)
Definition clearVideoUrl (p : Page) : Page :=
  mkPage (multitrack p) (videoElement p) None (upload p) (isPlaying p)
    (currentTime p) (duration p) (tracksReady p) (tracks p) (regions p)
    (selectedRegion p) (regionsPlugin p).

End VideoReset.

(** ** The audio trimming page around [trimAudio] *)

Module AudioPage.

(** A region object of the wavesurfer regions plugin. *)
Record PlRegion := mkPlRegion {
  wid : string;
  wstart : Q;
  wend : Q;
  wcolor : string
}.

(** What [plugin.getRegions?.()] returns: an array, a plain object keyed
    by region id, or anything else. *)
Inductive Collection :=
| CArray (rs : list PlRegion)
| CObject (kv : list (string * PlRegion))
| COther.

(** [Object.values(...)] of the collection. *)
Definition values (c : Collection) : list PlRegion :=
  match c with
  | CArray rs => rs
  | CObject kv => map snd kv
  | COther => []
  end.

(** [syncRegions]: the page's region list rebuilt from the plugin. *)
Definition syncRegions (c : Collection) : list Trim.Region :=
  map (fun r => Trim.mkRegion (wid r) (wstart r) (wend r)) (values c).

Record Plugin := mkPlugin {
  collection : Collection;
  has_removeRegion : bool;    (* [typeof plugin.removeRegion === 'function'] *)
  region_has_remove : bool    (* [typeof region.remove === 'function'] *)
}.

Fixpoint assoc (k : string) (kv : list (string * PlRegion)) : option PlRegion :=
  match kv with
  | [] => None
  | (k', v) :: t => if String.eqb k k' then Some v else assoc k t
  end.

Fixpoint remove_first_wid (i : string) (rs : list PlRegion) : list PlRegion :=
  match rs with
  | [] => []
  | r :: t => if String.eqb (wid r) i then t else r :: remove_first_wid i t
  end.

Fixpoint remove_key (k : string) (kv : list (string * PlRegion))
  : list (string * PlRegion) :=
  match kv with
  | [] => []
  | (k', v) :: t => if String.eqb k k' then t else (k', v) :: remove_key k t
  end.

(** [removeRegion(id)]: the plugin after the call ([None] when
    [regionsPluginRef.current] is null). The removal then fires
    ['region-removed'], whose handler is [syncRegions]. *)
Definition removeRegion (i : string) (plugin : option Plugin) : option Plugin :=
  match plugin with
  | None => None
  | Some p =>
      let found :=
        match collection p with
        | CArray rs => find (fun r => String.eqb (wid r) i) rs
        | CObject kv => assoc i kv
        | COther => None
        end in
      match found with
      | None => Some p
      | Some _ =>
          if has_removeRegion p || region_has_remove p then
            let c :=
              match collection p with
              | CArray rs => CArray (remove_first_wid i rs)
              | CObject kv => CObject (remove_key i kv)
              | COther => COther
              end in
            Some (mkPlugin c (has_removeRegion p) (region_has_remove p))
          else Some p
      end
  end.

Record Page := mkPage {
  upload : Upload.State;           (* [mediaUrl] is [audioUrl] *)
  trimmedAudioUrl : option string;
  wavesurfer : bool;               (* [wavesurferRef.current !== null] *)
  regionsPlugin : option Plugin;
  regions : list Trim.Region
}.

Inductive Cmd :=
| RevokeUrl (u : string)
| WsDestroy
| ClearFileInput.

(** [resetUpload] of the audio page. *)
Definition resetUpload (p : Page) : list Cmd * Page :=
  let rev1 :=
    match Upload.mediaUrl (upload p) with Some u => [RevokeUrl u] | None => [] end in
  let rev2 :=
    match trimmedAudioUrl p with Some u => [RevokeUrl u] | None => [] end in
  let ws := if wavesurfer p then [WsDestroy] else [] in
  (rev1 ++ rev2 ++ ws ++ [ClearFileInput],
   mkPage Upload.initState None false
     (if wavesurfer p then None else regionsPlugin p) []).

(** [downloadTrimmedAudio]: the [download] name of the link it clicks, or
    [None] when there is no trimmed audio. *)
Definition downloadTrimmedAudio (trimmedUrl : option string)
  (selectedFile : option Upload.File) : option string :=
  match trimmedUrl with
  | None => None
  | Some _ =>
      let n :=
        match selectedFile with
        | Some f => if String.eqb (Upload.fname f) EmptyString then "audio"%string
                    else Upload.fname f
        | None => "audio"%string
        end in
      Some ("trimmed_" ++ n ++ ".wav")%string
  end.

(** A plain object whose keys are the ids of the regions stored under
    them, which is how the plugin keys its regions. *)
Definition well_keyed (c : Collection) : Prop :=
  match c with
  | CObject kv => Forall (fun kr => fst kr = wid (snd kr)) kv
  | _ => True
  end.

End AudioPage.

(** ** The engine side of [updateTrackVolume] *)

Module VolumeDispatch.

(** A per-track audio controller found in the engine: whether it has a
    [setVolume] method and whether it has a truthy [media] element. *)
Record Instance := mkInstance {
  has_setVolume : bool;
  has_media : bool
}.

(** One of [multitrack.wavesurfers], [.channels], [.players], [.ws],
    [.instances]: [None] when falsy, else its slots by track id, a slot
    being [None] when it is falsy. *)
Definition Location := option (list (option Instance)).

Record Engine := mkEngine {
  possibleLocations : list Location;
  has_setTrackVolume : bool     (* [typeof multitrack.setTrackVolume] *)
}.

(** Where the volume goes: [setVolume] or [media.volume] of the instance
    in the location with that index, [multitrack.setTrackVolume], or
    nowhere. *)
Inductive Target :=
| ViaSetVolume (loc : nat)
| ViaMedia (loc : nat)
| ViaTrackLevel
| NoTarget.

(** [location && location[trackId]]. *)
Definition slot_of (l : Location) (trackId : nat) : option Instance :=
  match l with
  | None => None
  | Some arr =>
      match nth_error arr trackId with
      | Some (Some inst) => Some inst
      | _ => None
      end
  end.

(** The [for ... of possibleLocations] loop; [k] is the index of the
    current location. *)
Fixpoint search (k trackId : nat) (locs : list Location) : option Target :=
  match locs with
  | [] => None
  | l :: rest =>
      match slot_of l trackId with
      | Some inst =>
          if has_setVolume inst then Some (ViaSetVolume k)
          else if has_media inst then Some (ViaMedia k)
          else search (S k) trackId rest
      | None => search (S k) trackId rest
      end
  end.

(** The engine part of [updateTrackVolume], after the React state update;
    [multitrack] is [multitrackRef.current]. *)
Definition engineTarget (multitrack : option Engine) (trackId : nat) : Target :=
  match multitrack with
  | None => NoTarget
  | Some m =>
      match search 0 trackId (possibleLocations m) with
      | Some t => t
      | None => if has_setTrackVolume m then ViaTrackLevel else NoTarget
      end
  end.

(** The instance of location [j] for the track, if any. *)
Definition slot (m : Engine) (j trackId : nat) : option Instance :=
  match nth_error (possibleLocations m) j with
  | Some l => slot_of l trackId
  | None => None
  end.

Definition usable (inst : Instance) : bool := has_setVolume inst || has_media inst.

End VolumeDispatch.

(** * Properties *)

(** ** Lemmas on [mapi] *)

Lemma mapi_from_length {A B} (f : nat -> A -> B) i l :
  length (mapi_from f i l) = length l.
Proof. revert i; induction l; simpl; auto. Qed.

Lemma mapi_from_nth_error {A B} (f : nat -> A -> B) l :
  forall i k x, nth_error l k = Some x ->
  nth_error (mapi_from f i l) k = Some (f (i + k)%nat x).
Proof.
  induction l as [|y t IH]; intros i k x Hk; destruct k; simpl in *;
    try discriminate.
  - inversion Hk; subst. rewrite Nat.add_0_r. reflexivity.
  - rewrite (IH (S i) k x Hk). f_equal. f_equal. lia.
Qed.

Lemma mapi_from_ext {A A' B} (f : nat -> A -> B) (g : nat -> A' -> B) i
  (l : list A) (l' : list A') :
  Forall2 (fun x y => forall j, f j x = g j y) l l' ->
  mapi_from f i l = mapi_from g i l'.
Proof.
  intros H; revert i; induction H; intros i; simpl; auto.
  rewrite H, IHForall2. reflexivity.
Qed.

Lemma mapi_from_index {A} i (l : list A) :
  mapi_from (fun j _ => j) i l = seq i (length l).
Proof. revert i; induction l; simpl; intros; f_equal; auto. Qed.


Lemma map_eq_Forall2 {A A' B} (f : A -> B) (g : A' -> B) l l' :
  map f l = map g l' -> Forall2 (fun x y => f x = g y) l l'.
Proof.
  revert l'; induction l as [|x t IH]; intros [|y t'] H; simpl in H;
    try discriminate; constructor; inversion H; auto.
Qed.

(** ** Trimming *)

Module TrimFacts.
Import Trim.

Definition triple (r : Region) : string * Q * Q := (id r, start r, end_ r).

Definition stB : State :=
  mkState true [mkRegion "a" 0 2; mkRegion "b" 5 7] true false.

(** Scenario B: regions created as (0,2) then (5,7) are trimmed and
    concatenated in that order. *)
Example scenario_B :
  filterComplex (regions stB) =
    mkFilterComplex [Atrim 0 2 0; Atrim 5 7 1] [0; 1]%nat 2.
Proof. reflexivity. Qed.

(** A later-created but earlier region keeps its creation position. *)
Example scenario_B_reversed :
  filterComplex [mkRegion "b" 5 7; mkRegion "a" 0 2] =
    mkFilterComplex [Atrim 5 7 0; Atrim 0 2 1] [0; 1]%nat 2.
Proof. reflexivity. Qed.

Lemma filterComplex_shape (regs : list Region) :
  length (filter_parts (filterComplex regs)) = length regs /\
  (forall k r, nth_error regs k = Some r ->
     nth_error (filter_parts (filterComplex regs)) k =
       Some (Atrim (start r) (end_ r) k)) /\
  concat_inputs (filterComplex regs) = seq 0 (length regs) /\
  concat_n (filterComplex regs) = length regs.
Proof.
  unfold filterComplex, filterParts, concatInputs, mapi; simpl.
  split; [apply mapi_from_length|].
  split; [intros k r Hk; rewrite (mapi_from_nth_error _ _ 0 k r Hk);
           reflexivity|].
  split; [apply mapi_from_index|reflexivity].
Qed.

Lemma filterComplex_triples (regs regs' : list Region) :
  map triple regs' = map triple regs ->
  filterComplex regs' = filterComplex regs.
Proof.
  intros H. apply map_eq_Forall2 in H.
  assert (Hl : length regs' = length regs) by
    (eapply Forall2_length; eauto).
  unfold filterComplex, filterParts, concatInputs, mapi.
  rewrite Hl. f_equal; apply mapi_from_ext; eapply Forall2_impl; eauto;
    simpl; intros x y Hxy j; unfold triple in Hxy; inversion Hxy;
    reflexivity.
Qed.

(** C1: for a non-empty region list (with an audio file selected and the
    processor available), [trimAudio] runs FFmpeg at most once, and
    exactly once as soon as [input.wav] is written, on a filter with one
    [atrim (start_i, end_i)] per region, in list order, labelled
    [a0 .. a(n-1)], concatenated in that order with [n] inputs; the filter
    depends only on the ids, starts and ends of the list, in order. *)
Theorem trimAudio_plan_in_creation_order (st : State) (init_ok : bool)
  (r : TryOutcome)
  (Hfile : selectedFile st = true) (Hne : regions st <> [])
  (Hff : ffmpegLoaded st = true \/ init_ok = true) :
  (r <> FetchFails -> r <> WriteFails ->
     filter is_exec (trimAudio st init_ok r) =
       [Exec exec_args (filterComplex (regions st))]) /\
  (r = FetchFails \/ r = WriteFails ->
     filter is_exec (trimAudio st init_ok r) = []) /\
  length (filter_parts (filterComplex (regions st))) = length (regions st) /\
  (forall k r, nth_error (regions st) k = Some r ->
     nth_error (filter_parts (filterComplex (regions st))) k =
       Some (Atrim (start r) (end_ r) k)) /\
  concat_inputs (filterComplex (regions st)) = seq 0 (length (regions st)) /\
  concat_n (filterComplex (regions st)) = length (regions st) /\
  (forall regs', map triple regs' = map triple (regions st) ->
     filterComplex regs' = filterComplex (regions st)).
Proof.
  assert (Hcall : exists pre, filter is_exec pre = [] /\
    trimAudio st init_ok r =
      pre ++ [SetIsProcessing true; SetError EmptyString] ++
      tryBlock (filterComplex (regions st)) r ++ [SetIsProcessing false]).
  { unfold trimAudio. rewrite Hfile.
    destruct (regions st) eqn:Hr; [congruence|]. cbn [negb orb length Nat.eqb].
    destruct (ffmpegLoaded st), init_ok; cbn [negb andb];
      try (destruct Hff; discriminate);
      [exists []|exists []|exists [InitFFmpeg]]; split; reflexivity. }
  destruct Hcall as (pre & Hpre & ->).
  split; [|split].
  - intros H1 H2. rewrite !filter_app, Hpre.
    destruct r; try congruence; reflexivity.
  - intros [-> | ->]; rewrite !filter_app, Hpre; reflexivity.
  - destruct (filterComplex_shape (regions st)) as (H1 & H2 & H3 & H4).
    repeat split; auto. apply filterComplex_triples.
Qed.

Lemma trimAudio_plan_in_creation_order_witness :
  selectedFile stB = true /\ regions stB <> [] /\
  (ffmpegLoaded stB = true \/ true = true) /\
  filter is_exec (trimAudio stB true TryOk) =
    [Exec exec_args (mkFilterComplex [Atrim 0 2 0; Atrim 5 7 1] [0; 1]%nat 2)].
Proof.
  assert (H1 : selectedFile stB = true) by reflexivity.
  assert (H2 : regions stB <> []) by discriminate.
  assert (H3 : ffmpegLoaded stB = true \/ true = true) by (left; reflexivity).
  destruct (trimAudio_plan_in_creation_order stB true TryOk H1 H2 H3)
    as (H4 & _).
  split; [exact H1|]. split; [exact H2|]. split; [exact H3|].
  rewrite H4 by discriminate. reflexivity.
Defined.

Definition stEmpty : State := mkState true [] true false.

(** C7: with an empty region list [trimAudio] only reports the error
    message: no [atrim] is built, FFmpeg is neither loaded nor run, the
    processing flag is not touched and no trimmed output is produced. *)
Theorem trimAudio_no_regions (st : State) (init_ok : bool) (r : TryOutcome)
  (Hempty : regions st = []) :
  trimAudio st init_ok r = [SetError msg_select].
Proof.
  unfold trimAudio. rewrite Hempty. simpl.
  rewrite orb_true_r. reflexivity.
Qed.

Lemma trimAudio_no_regions_witness :
  regions stEmpty = [] /\ trimAudio stEmpty true TryOk = [SetError msg_select].
Proof.
  split; [reflexivity|]. apply trimAudio_no_regions. reflexivity.
Defined.

(** A request already in flight: processing flag set. *)
Definition stBusy : State :=
  mkState true [mkRegion "a" 0 2] true true.

(** C5 fails: a trim request made while one is pending (the Trim button,
    the only caller of [trimAudio], clicked with the processing flag set)
    is dropped without any report: no error, no Busy condition, nothing. *)
Lemma trim_while_pending_reports_nothing :
  isProcessing stBusy = true /\
  trimButtonClick stBusy true TryOk = [] /\
  ~ (exists msg, In (SetError msg) (trimButtonClick stBusy true TryOk)).
Proof.
  split; [reflexivity|]. split; [reflexivity|].
  intros (msg & H). exact H.
Qed.

(** C5 as the code has it: while a trim request is pending (the processing
    flag is set), the Trim button is disabled, so a second request is
    dropped: it is not queued, starts no FFmpeg work, leaves the first
    request's effects alone and reports nothing. *)
Theorem trimButtonClick_while_pending (st : State) (init_ok : bool)
  (r : TryOutcome) (Hbusy : isProcessing st = true) :
  trimButtonClick st init_ok r = [].
Proof.
  unfold trimButtonClick. rewrite Hbusy. reflexivity.
Qed.

Lemma trimButtonClick_while_pending_witness :
  isProcessing stBusy = true /\ trimButtonClick stBusy true TryOk = [].
Proof.
  assert (H : isProcessing stBusy = true) by reflexivity.
  split; [exact H|]. exact (trimButtonClick_while_pending stBusy true TryOk H).
Defined.

End TrimFacts.

(** ** Clock sync *)

Module SyncFacts.
Import Sync.

Lemma Qgt_bool_true (x y : Q) : Qgt_bool x y = true <-> y < x.
Proof.
  unfold Qgt_bool. rewrite negb_true_iff.
  split; intros H.
  - apply Qnot_le_lt. intros Hle. apply Qle_bool_iff in Hle. congruence.
  - destruct (Qle_bool x y) eqn:E; auto. apply Qle_bool_iff in E.
    exfalso. apply (Qlt_not_le _ _ H E).
Qed.

Lemma Qgt_bool_false (x y : Q) : Qgt_bool x y = false <-> x <= y.
Proof.
  unfold Qgt_bool. rewrite negb_false_iff. apply Qle_bool_iff.
Qed.

(** C2: during a live tick with the video element present, a drift
    [|f - m|] above 0.2 s sets the video time to the master time [m]; a
    drift of at most 0.2 s leaves it at [f]. Running the tick again with
    the same master time changes nothing. *)
Theorem updateTime_drift_correction (m f : Q) (st : State)
  (Hlive : isCancelled st = false) (Href : multitrackRef st = true)
  (Hvideo : video st = Some f) :
  (drift_threshold < Qabs (f - m) -> video (updateTime m st) = Some m) /\
  (Qabs (f - m) <= drift_threshold -> video (updateTime m st) = Some f) /\
  updateTime m (updateTime m st) = updateTime m st.
Proof.
  unfold updateTime. rewrite Hlive, Href, Hvideo. cbn [orb negb isCancelled multitrackRef video].
  split; [|split].
  - intros H. apply Qgt_bool_true in H. rewrite H. reflexivity.
  - intros H. apply Qgt_bool_false in H. rewrite H. reflexivity.
  - destruct (Qgt_bool (Qabs (f - m)) drift_threshold) eqn:E;
      cbn [orb negb isCancelled multitrackRef video].
    + match goal with |- (if ?c then _ else _) = _ => destruct c end;
        reflexivity.
    + rewrite E. reflexivity.
Qed.

Definition st_sync : State := mkState false true (Some 3) 3.

Lemma updateTime_drift_correction_witness :
  video (updateTime 1 st_sync) = Some 1 /\
  video (updateTime (29 # 10) st_sync) = Some 3.
Proof.
  destruct (updateTime_drift_correction 1 3 st_sync eq_refl eq_refl eq_refl)
    as [H1 _].
  destruct (updateTime_drift_correction (29 # 10) 3 st_sync eq_refl eq_refl
              eq_refl) as [_ [H2 _]].
  split; [apply H1 | apply H2]; vm_compute; first [reflexivity | discriminate].
Defined.

End SyncFacts.

(** ** Track list *)

Module TracksFacts.
Import Tracks.

Lemma find_track_map_update (f : Track -> Track) (k tid : nat) ts :
  (forall t, id (f t) = id t) ->
  find_track tid (map (fun t => if Nat.eqb (id t) k then f t else t) ts) =
    if Nat.eqb tid k then option_map f (find_track tid ts)
    else find_track tid ts.
Proof.
  intros Hf. unfold find_track.
  induction ts as [|t ts IH]; simpl.
  - destruct (Nat.eqb tid k); reflexivity.
  - destruct (Nat.eqb (id t) k) eqn:Ek; simpl.
    + rewrite Hf. apply Nat.eqb_eq in Ek. subst k.
      destruct (Nat.eqb (id t) tid) eqn:Et.
      * apply Nat.eqb_eq in Et. subst tid. rewrite Nat.eqb_refl. reflexivity.
      * rewrite IH. rewrite Nat.eqb_sym, Et. reflexivity.
    + destruct (Nat.eqb (id t) tid) eqn:Et.
      * apply Nat.eqb_eq in Et. subst tid. rewrite Ek. reflexivity.
      * exact IH.
Qed.


(** C4 at the inputs it receives: [updateTrackVolume] is only called by
    the volume range slider ([min="0"], [max="1"]), whose value lies in
    [0,1]; for such a [v] the track [id] gets [v = min(max(v,0),1)] as its
    volume, the other tracks are unchanged, applying it twice equals
    applying it once, and all stored volumes stay within [0,1]. *)
Theorem updateTrackVolume_stores_clamped (tid : nat) (v : Q)
  (ts : list Track) (Hv : 0 <= v <= 1) :
  find_track tid (updateTrackVolume tid v ts) =
    option_map (set_volume v) (find_track tid ts) /\
  v == Qmin (Qmax v 0) 1 /\
  (forall tid', tid' <> tid ->
     find_track tid' (updateTrackVolume tid v ts) = find_track tid' ts) /\
  updateTrackVolume tid v (updateTrackVolume tid v ts) =
    updateTrackVolume tid v ts /\
  (Forall (fun t => 0 <= volume t <= 1) ts ->
     Forall (fun t => 0 <= volume t <= 1) (updateTrackVolume tid v ts)).
Proof.
  unfold updateTrackVolume. split; [|split; [|split; [|split]]].
  - rewrite find_track_map_update by reflexivity.
    rewrite Nat.eqb_refl. reflexivity.
  - destruct Hv as [H0 H1].
    rewrite Q.max_l by exact H0. rewrite Q.min_l by exact H1. reflexivity.
  - intros tid' Hne. rewrite find_track_map_update by reflexivity.
    apply Nat.eqb_neq in Hne. rewrite Hne. reflexivity.
  - rewrite map_map. apply map_ext. intros t.
    destruct (Nat.eqb (id t) tid) eqn:E; simpl; rewrite ?E; reflexivity.
  - intros Hts. apply Forall_map. eapply Forall_impl; [|exact Hts].
    intros t Ht. destruct (Nat.eqb (id t) tid); simpl; assumption.
Qed.

Lemma updateTrackVolume_stores_clamped_witness :
  find_track 1 (updateTrackVolume 1 (1 # 2) initialTracks) =
    Some (mkTrack 1 "Song 1" (1 # 2) 0 true []) /\
  Forall (fun t => 0 <= volume t <= 1)
    (updateTrackVolume 1 (1 # 2) initialTracks).
Proof.
  assert (Hv : 0 <= 1 # 2 <= 1) by (split; vm_compute; discriminate).
  destruct (updateTrackVolume_stores_clamped 1 (1 # 2) initialTracks Hv)
    as (H1 & _ & _ & _ & H5).
  split.
  - rewrite H1. reflexivity.
  - apply H5. repeat constructor; vm_compute; discriminate.
Defined.



End TracksFacts.

(** ** Subtitle regions *)

Module RegionsFacts.
Import Regions.

Definition in_range (d : Q) (reg : Region) : Prop :=
  0 <= start reg /\ start reg <= end_ reg /\ end_ reg <= d.

Lemma addRegion_not_ready (now : N) (r : Q) (st : State) :
  plugin st = None -> addRegion now r st = (AlertNotReady msg_not_ready, st).
Proof. intros H. unfold addRegion. rewrite H. reflexivity. Qed.

Lemma addRegion_ready (now : N) (r : Q) (st : State) :
  plugin st <> None ->
  fst (addRegion now r st) = Done /\
  regions (snd (addRegion now r st)) =
    regions st ++
      [mkRegion (regionIdOf now) (currentTime st)
         (Qmin (currentTime st + default_length) (duration st))
         "New subtitle" (pick_color r)].
Proof.
  intros H. unfold addRegion. destruct (plugin st); [|congruence].
  split; reflexivity.
Qed.

(** C6: with the regions plugin attached, [addRegion] at playback time [t]
    stores the region [(t, min(t + 10, duration))] after the existing
    ones, 10 s being the code's default length; with [duration = 8] and
    [t = 6] that is [(6, 8)], 2 s long. Without the plugin it only alerts
    and leaves the state as it was. *)
Theorem addRegion_anchor_and_not_ready (now : N) (r : Q) (st : State) :
  (plugin st = None ->
     addRegion now r st = (AlertNotReady msg_not_ready, st)) /\
  (plugin st <> None ->
     fst (addRegion now r st) = Done /\
     exists reg, regions (snd (addRegion now r st)) = regions st ++ [reg] /\
       start reg = currentTime st /\
       end_ reg = Qmin (currentTime st + default_length) (duration st)) /\
  (plugin st <> None -> currentTime st = 6 -> duration st = 8 ->
     exists reg, regions (snd (addRegion now r st)) = regions st ++ [reg] /\
       start reg = 6 /\ end_ reg = 8 /\ end_ reg - start reg == 2).
Proof.
  split; [apply addRegion_not_ready|]. split.
  - intros H. destruct (addRegion_ready now r st H) as [H1 H2].
    split; [exact H1|]. eexists. split; [exact H2|]. split; reflexivity.
  - intros H Ht Hd. destruct (addRegion_ready now r st H) as [_ H2].
    rewrite Ht, Hd in H2. eexists. split; [exact H2|].
    split; [reflexivity|]. split; [reflexivity|]. reflexivity.
Qed.

Definition stC : State := mkState (Some []) [] None 6 8.

Lemma addRegion_anchor_and_not_ready_witness :
  (exists reg, regions (snd (addRegion 0 0 stC)) = [reg] /\
     start reg = 6 /\ end_ reg = 8) /\
  addRegion 0 0 (mkState None [] None 6 8) =
    (AlertNotReady msg_not_ready, mkState None [] None 6 8).
Proof.
  destruct (addRegion_anchor_and_not_ready 0 0 stC) as (_ & _ & H3).
  destruct (addRegion_anchor_and_not_ready 0 0 (mkState None [] None 6 8))
    as (H1 & _ & _).
  split.
  - destruct (H3 ltac:(discriminate) eq_refl eq_refl)
      as (reg & Hr & Hs & He & _).
    exists reg. split; [exact Hr|]. split; assumption.
  - apply H1. reflexivity.
Defined.

Lemma pick_color_index (r : Q) :
  0 <= r < 1 -> (0 <= Qfloor (r * 6) < 6)%Z.
Proof.
  intros [H0 H1].
  assert (Hlo : 0 <= r * 6) by
    (apply Qmult_le_0_compat; [exact H0|discriminate]).
  assert (Hhi : r * 6 < 6).
  { setoid_replace 6 with (1 * 6) at 2 by reflexivity.
    apply Qmult_lt_r; [reflexivity|exact H1]. }
  pose proof (Qfloor_le (r * 6)) as Hf.
  pose proof (Qlt_floor (r * 6)) as Hc.
  split.
  - assert (H : inject_Z 0 < inject_Z (Qfloor (r * 6) + 1)) by
      (eapply Qle_lt_trans; [exact Hlo|exact Hc]).
    rewrite <- Zlt_Qlt in H. lia.
  - assert (H : inject_Z (Qfloor (r * 6)) < inject_Z 6) by
      (eapply Qle_lt_trans; [exact Hf|exact Hhi]).
    rewrite <- Zlt_Qlt in H. exact H.
Qed.

Lemma pick_color_in_palette (r : Q) :
  0 <= r < 1 -> In (pick_color r) colors.
Proof.
  intros Hr. apply pick_color_index in Hr.
  unfold pick_color. apply nth_In. simpl length.
  change (inject_Z (Z.of_nat 6)) with 6. lia.
Qed.

(** C9 fails: the color is drawn with [Math.random()]; the same state,
    timestamp and anchor give a different color for the draws 0 and 1/2. *)
Lemma addRegion_color_depends_on_draw :
  map color (regions (snd (addRegion 5 0 stC))) <>
  map color (regions (snd (addRegion 5 (1 # 2) stC))).
Proof. vm_compute. discriminate. Qed.

(** C9 as the code has it: for a draw [r] of [Math.random()] in [0,1),
    [addRegion] colors the new region [colors[floor(r * 6)]], always one
    of the six fixed palette entries, chosen by the random draw. *)
Theorem addRegion_color_from_palette (now : N) (r : Q) (st : State)
  (Hr : 0 <= r < 1) (Hready : plugin st <> None) :
  exists reg, regions (snd (addRegion now r st)) = regions st ++ [reg] /\
    color reg = pick_color r /\ In (color reg) colors.
Proof.
  destruct (addRegion_ready now r st Hready) as [_ H].
  eexists. split; [exact H|]. split; [reflexivity|].
  apply pick_color_in_palette. exact Hr.
Qed.

Lemma addRegion_color_from_palette_witness :
  exists reg, regions (snd (addRegion 5 (1 # 2) stC)) = [reg] /\
    color reg = "rgba(200, 200, 50, 0.5)"%string.
Proof.
  destruct (addRegion_color_from_palette 5 (1 # 2) stC
              ltac:(split; vm_compute; first [discriminate | reflexivity])
              ltac:(discriminate)) as (reg & H1 & H2 & _).
  exists reg. split; [exact H1|]. rewrite H2. reflexivity.
Defined.

End RegionsFacts.

(** ** Regions plugin and region list stay in step *)

Module RegionsSync.
Import Regions.

(** [Date.now()] ids: an added region gets an id not in the list yet. *)
Definition fresh (ev : Event) (st : State) : Prop :=
  match ev with
  | EvAdd now _ => ~ In (regionIdOf now) (map id (regions st))
  | _ => True
  end.

Inductive reachable : State -> Prop :=
| reach_init : reachable initState
| reach_step (ev : Event) (st : State) :
    reachable st -> fresh ev st -> reachable (step ev st).

(** The multitrack clock (songs longer than the video) past the end of
    an 8 s video, with the regions plugin attached. *)
Definition stPastEnd : State :=
  step (EvTime 9) (step (EvDuration 8) (step EvAttachPlugin initState)).

(** Every plugin region is listed in the state, plugin ids distinct. *)
Definition synced (st : State) : Prop :=
  match plugin st with
  | None => True
  | Some ps =>
      NoDup (map pid ps) /\ Forall (fun p => In (pid p) (map id (regions st))) ps
  end.

Lemma NoDup_snoc {A} (l : list A) (a : A) :
  NoDup l -> ~ In a l -> NoDup (l ++ [a]).
Proof.
  induction 1 as [|x l Hx Hl IH]; intros Ha; simpl.
  - constructor; [intros []|constructor].
  - constructor.
    + intros Hin. apply in_app_or in Hin as [Hin|[Hin|[]]]; [tauto|].
      subst. apply Ha. left. reflexivity.
    + apply IH. intros Hin. apply Ha. right. exact Hin.
Qed.

Lemma update_first_pids (rid : string) (f : PRegion -> PRegion) ps :
  (forall p, pid (f p) = pid p) ->
  map pid (update_first rid f ps) = map pid ps.
Proof.
  intros Hf. induction ps as [|p ps IH]; simpl; auto.
  destruct (pid_is rid p); simpl; rewrite ?Hf, ?IH; reflexivity.
Qed.

Lemma update_first_In (rid : string) (f : PRegion -> PRegion) ps q :
  (forall p, pid (f p) = pid p) ->
  In q (update_first rid f ps) -> exists p, In p ps /\ pid q = pid p.
Proof.
  intros Hf. induction ps as [|p ps IH]; simpl; [intros []|].
  destruct (pid_is rid p); simpl; intros [Hq|Hq].
  - subst q. exists p. auto.
  - exists q. auto.
  - subst q. exists p. auto.
  - destruct (IH Hq) as (p' & Hp' & E). exists p'. auto.
Qed.

Lemma remove_first_spec (rid : string) ps :
  NoDup (map pid ps) ->
  NoDup (map pid (remove_first rid ps)) /\
  (forall q, In q (remove_first rid ps) -> In q ps /\ pid q <> rid).
Proof.
  induction ps as [|p ps IH]; simpl; intros Hnd.
  - split; [constructor|intros q []].
  - inversion Hnd as [|? ? Hp Hnd']; subst.
    unfold pid_is. destruct (String.eqb (pid p) rid) eqn:E.
    + apply String.eqb_eq in E. subst rid. split; [exact Hnd'|].
      intros q Hq. split; [right; exact Hq|].
      intros Hqp. apply Hp. rewrite <- Hqp. apply in_map. exact Hq.
    + destruct (IH Hnd') as [H1 H2]. simpl. split.
      * constructor; [|exact H1]. intros Hin. apply Hp.
        apply in_map_iff in Hin as (q & Hq & Hqin).
        rewrite <- Hq. apply in_map. apply H2. exact Hqin.
      * intros q [Hq|Hq].
        -- subst q. split; [left; reflexivity|].
           apply String.eqb_neq. exact E.
        -- destruct (H2 q Hq). split; [right|]; assumption.
Qed.

Lemma ids_map_times (rid : string) (vs ve : Q) (rs : list Region) :
  map id (map (fun r => if String.eqb (id r) rid then set_times vs ve r
                        else r) rs) = map id rs.
Proof.
  rewrite map_map. apply map_ext. intros r.
  destruct (String.eqb (id r) rid); reflexivity.
Qed.

Lemma ids_map_content (rid c : string) (rs : list Region) :
  map id (map (fun r => if String.eqb (id r) rid
                        then mkRegion (id r) (start r) (end_ r) c (color r)
                        else r) rs) = map id rs.
Proof.
  rewrite map_map. apply map_ext. intros r.
  destruct (String.eqb (id r) rid); reflexivity.
Qed.

Lemma synced_step (ev : Event) (st : State) :
  synced st -> fresh ev st -> synced (step ev st).
Proof.
  intros Hs Hf. destruct ev as [now r|rid s e|rid|
                                |rid c| | | |t|d]; simpl in Hf |- *.
  - (* addRegion *)
    unfold addRegion. unfold synced in Hs |- *.
    destruct (plugin st) as [ps|] eqn:Hp; [|simpl; rewrite Hp; exact I].
    simpl. destruct Hs as [Hnd Hall]. rewrite !map_app. split.
    + apply NoDup_snoc; [exact Hnd|]. intros Hin.
      apply in_map_iff in Hin as (p & Hp' & Hpin).
      simpl in Hp'. apply Hf. rewrite <- Hp'.
      rewrite Forall_forall in Hall. apply Hall. exact Hpin.
    + apply Forall_app. split.
      * eapply Forall_impl; [|exact Hall]. intros p Hp'.
        apply in_or_app. left. exact Hp'.
      * constructor; [|constructor]. simpl.
        apply in_or_app. right. left. reflexivity.
  - (* updateRegionTime *)
    unfold updateRegionTime. unfold synced in Hs |- *.
    destruct (plugin st) as [ps|] eqn:Hp; [|rewrite Hp; exact I].
    destruct (find (pid_is rid) ps); [|rewrite Hp; exact Hs].
    simpl. destruct Hs as [Hnd Hall]. split.
    + rewrite update_first_pids by reflexivity. exact Hnd.
    + rewrite ids_map_times. apply Forall_forall. intros q Hq.
      eapply update_first_In in Hq; [|intros; reflexivity].
      destruct Hq as (p0 & Hpin & E). rewrite E.
      rewrite Forall_forall in Hall. apply Hall. exact Hpin.
  - (* deleteRegion *)
    unfold deleteRegion. unfold synced in Hs |- *.
    destruct (plugin st) as [ps|] eqn:Hp; [|rewrite Hp; exact I].
    destruct (find (pid_is rid) ps); [|rewrite Hp; exact Hs].
    simpl. destruct Hs as [Hnd Hall].
    destruct (remove_first_spec rid ps Hnd) as [H1 H2]. split; [exact H1|].
    apply Forall_forall. intros q Hq. destruct (H2 q Hq) as [Hqin Hne].
    rewrite Forall_forall in Hall. specialize (Hall q Hqin).
    apply in_map_iff in Hall as (x & Hx & Hxin).
    rewrite <- Hx. apply in_map. apply filter_In. split; [exact Hxin|].
    rewrite Hx. apply negb_true_iff. apply String.eqb_neq. exact Hne.
  - (* clearAllRegions *)
    unfold clearAllRegions. unfold synced in Hs |- *.
    destruct (plugin st) as [ps|] eqn:Hp; [|rewrite Hp; exact I].
    simpl. split; constructor.
  - (* content edit *)
    unfold editContent, synced in Hs |- *. simpl.
    destruct (plugin st) as [ps|]; [|exact I].
    destruct Hs as [Hnd Hall]. split.
    + rewrite update_first_pids by reflexivity. exact Hnd.
    + rewrite ids_map_content. apply Forall_forall. intros q Hq.
      eapply update_first_In in Hq; [|intros; reflexivity].
      destruct Hq as (p0 & Hpin & E). rewrite E.
      rewrite Forall_forall in Hall. apply Hall. exact Hpin.
  - unfold synced. simpl. split; constructor.
  - exact I.
  - exact I.
  - exact Hs.
  - exact Hs.
Qed.

Lemma reachable_synced (st : State) : reachable st -> synced st.
Proof.
  induction 1 as [|ev st Hr IH Hf]; [exact I|].
  apply synced_step; assumption.
Qed.

Lemma synced_find_none (st : State) (ps : list PRegion) (rid : string) :
  synced st -> plugin st = Some ps -> ~ In rid (map id (regions st)) ->
  find (pid_is rid) ps = None.
Proof.
  unfold synced. intros Hs Hp Hn. rewrite Hp in Hs. destruct Hs as [_ Hall].
  destruct (find (pid_is rid) ps) as [p|] eqn:E; [|reflexivity].
  apply find_some in E as [Hpin Hid]. unfold pid_is in Hid.
  apply String.eqb_eq in Hid. exfalso. apply Hn. rewrite <- Hid.
  rewrite Forall_forall in Hall. apply Hall. exact Hpin.
Qed.

(** C10: in every state the page can reach (ids from [Date.now()] being
    distinct), [deleteRegion] and [updateRegionTime] on an id absent from
    the region list return the state unchanged: region list, selection
    and plugin regions alike; neither reports anything. *)
Theorem unknown_region_ops_are_noops (st : State) (rid : string) (s e : Q)
  (Hreach : reachable st) (Habsent : ~ In rid (map id (regions st))) :
  deleteRegion rid st = st /\ updateRegionTime rid s e st = st.
Proof.
  pose proof (reachable_synced st Hreach) as Hs.
  unfold deleteRegion, updateRegionTime.
  destruct (plugin st) as [ps|] eqn:Hp; [|split; reflexivity].
  rewrite (synced_find_none st ps rid Hs Hp Habsent). split; reflexivity.
Qed.

Definition st_one : State :=
  step (EvAdd 7 0) (step EvAttachPlugin initState).

Lemma unknown_region_ops_are_noops_witness :
  deleteRegion "region-8" st_one = st_one /\
  updateRegionTime "region-8" 1 2 st_one = st_one.
Proof.
  apply unknown_region_ops_are_noops.
  - apply reach_step; [|vm_compute; intros H; exact H].
    apply reach_step; [apply reach_init|exact I].
  - vm_compute. intros [H|[]]. discriminate.
Defined.

(** C3 fails in a reachable state: with the playback time 9 past an 8 s
    duration, [addRegion] stores the region (9, 8), which starts after its
    end and after the duration, because it clamps only the end
    ([Math.min(start + 10, duration)]); its sibling [updateRegionTime],
    given the same times for that region, clamps both and stores (8, 8). *)
Theorem addRegion_past_duration_inverted :
  reachable (step (EvAdd 0 0) stPastEnd) /\
  duration stPastEnd = 8 /\ currentTime stPastEnd = 9 /\
  (exists reg, regions (step (EvAdd 0 0) stPastEnd) = [reg] /\
     start reg = 9 /\ end_ reg = 8 /\
     ~ RegionsFacts.in_range (duration stPastEnd) reg) /\
  (exists reg,
     regions (step (EvUpdate (regionIdOf 0) 9 8) (step (EvAdd 0 0) stPastEnd))
       = [reg] /\
     start reg = 8 /\ end_ reg = 8 /\
     RegionsFacts.in_range (duration stPastEnd) reg).
Proof.
  split; [|split; [reflexivity|split; [reflexivity|split]]].
  - apply reach_step; [|cbn; tauto].
    repeat (apply reach_step; [|exact I]). apply reach_init.
  - eexists. split; [vm_compute; reflexivity|].
    split; [reflexivity|]. split; [reflexivity|].
    unfold RegionsFacts.in_range. intros (_ & H & _). vm_compute in H.
    apply H. reflexivity.
  - eexists. split; [vm_compute; reflexivity|].
    split; [reflexivity|]. split; [reflexivity|].
    unfold RegionsFacts.in_range; vm_compute.
    split; [discriminate|]. split; discriminate.
Qed.

End RegionsSync.

(** ** File selection and upload *)

Module UploadFacts.
Import Upload.

Lemma includes_In (l : list string) (s : string) :
  includes l s = true <-> In s l.
Proof.
  unfold includes. rewrite existsb_exists. split.
  - intros (x & Hx & E). apply String.eqb_eq in E. subst. exact Hx.
  - intros H. exists s. split; [exact H|apply String.eqb_refl].
Qed.

(** [validateVideo] accepts exactly the four video MIME types up to
    320 MiB (335544320 bytes, inclusive); a file of another type is refused
    with the type message whatever its size, an accepted type over the
    limit with the size message. *)
Theorem validateVideo_accepts_iff (f : File) :
  (validateVideo f = Valid <->
     In (ftype f) VALID_VIDEO_TYPES /\ (fsize f <= 335544320)%N) /\
  (~ In (ftype f) VALID_VIDEO_TYPES -> validateVideo f = Invalid msg_video_type) /\
  (In (ftype f) VALID_VIDEO_TYPES -> (335544320 < fsize f)%N ->
     validateVideo f = Invalid msg_video_size).
Proof.
  unfold validateVideo. destruct (includes VALID_VIDEO_TYPES (ftype f)) eqn:Ei;
    simpl; pose proof (includes_In VALID_VIDEO_TYPES (ftype f)) as Hi.
  - destruct (335544320 <? fsize f)%N eqn:Es.
    + apply N.ltb_lt in Es. split; [|split].
      * split; [discriminate|]. intros [_ H]. lia.
      * intros H. exfalso. apply H, Hi. exact Ei.
      * reflexivity.
    + apply N.ltb_ge in Es. split; [|split].
      * split; [intros _; split; [apply Hi; exact Ei|exact Es]|reflexivity].
      * intros H. exfalso. apply H, Hi. exact Ei.
      * intros _ H. lia.
  - split; [|split].
    + split; [discriminate|]. intros [H _]. apply Hi in H. congruence.
    + reflexivity.
    + intros H. apply Hi in H. congruence.
Qed.

Lemma validateVideo_accepts_iff_witness :
  validateVideo (mkFile "clip.mov" "video/quicktime" 335544321) =
    Invalid msg_video_size /\
  validateVideo (mkFile "song.mp3" "audio/mpeg" 999999999) =
    Invalid msg_video_type.
Proof.
  destruct (validateVideo_accepts_iff (mkFile "clip.mov" "video/quicktime" 335544321))
    as (_ & _ & H1).
  destruct (validateVideo_accepts_iff (mkFile "song.mp3" "audio/mpeg" 999999999))
    as (_ & H2 & _).
  split.
  - apply H1; [simpl; auto | simpl; lia].
  - apply H2. simpl. intros H.
    repeat destruct H as [H|H]; first [discriminate | exact H].
Defined.

(** [validateAudio] accepts exactly its seven audio MIME types up to
    50 MiB (52428800 bytes, inclusive); the type is checked first. *)
Theorem validateAudio_accepts_iff (f : File) :
  (validateAudio f = Valid <->
     In (ftype f) VALID_AUDIO_TYPES /\ (fsize f <= 52428800)%N) /\
  (~ In (ftype f) VALID_AUDIO_TYPES -> validateAudio f = Invalid msg_audio_type) /\
  (In (ftype f) VALID_AUDIO_TYPES -> (52428800 < fsize f)%N ->
     validateAudio f = Invalid msg_audio_size).
Proof.
  unfold validateAudio. destruct (includes VALID_AUDIO_TYPES (ftype f)) eqn:Ei;
    simpl; pose proof (includes_In VALID_AUDIO_TYPES (ftype f)) as Hi.
  - destruct (52428800 <? fsize f)%N eqn:Es.
    + apply N.ltb_lt in Es. split; [|split].
      * split; [discriminate|]. intros [_ H]. lia.
      * intros H. exfalso. apply H, Hi. exact Ei.
      * reflexivity.
    + apply N.ltb_ge in Es. split; [|split].
      * split; [intros _; split; [apply Hi; exact Ei|exact Es]|reflexivity].
      * intros H. exfalso. apply H, Hi. exact Ei.
      * intros _ H. lia.
  - split; [|split].
    + split; [discriminate|]. intros [H _]. apply Hi in H. congruence.
    + reflexivity.
    + intros H. apply Hi in H. congruence.
Qed.

Lemma validateAudio_accepts_iff_witness :
  validateAudio (mkFile "a.wav" "audio/wav" 52428801) = Invalid msg_audio_size /\
  validateAudio (mkFile "a.flac" "audio/flac" 10) = Invalid msg_audio_type.
Proof.
  destruct (validateAudio_accepts_iff (mkFile "a.wav" "audio/wav" 52428801))
    as (_ & _ & H1).
  destruct (validateAudio_accepts_iff (mkFile "a.flac" "audio/flac" 10))
    as (_ & H2 & _).
  split.
  - apply H1; [simpl; auto 10 | simpl; lia].
  - apply H2. simpl. intros H.
    repeat destruct H as [H|H]; first [discriminate | exact H].
Defined.

(** Picking an invalid file after a valid one keeps the earlier file and
    its object URL (only the error message changes), so a following
    [handleUpload] still succeeds, with the earlier file. *)
Theorem invalid_selection_keeps_previous (validate : File -> Validation)
  (f1 f2 : File) (u1 u2 m msg_none : string) (st : State)
  (Hv1 : validate f1 = Valid) (Hv2 : validate f2 = Invalid m) :
  let st' := handleFileSelect validate (Some f2) u2
               (handleFileSelect validate (Some f1) u1 st) in
  selectedFile st' = Some f1 /\ mediaUrl st' = Some u1 /\ error st' = m /\
  handleUpload msg_none st' = mkState (Some f1) true EmptyString (Some u1).
Proof.
  simpl. unfold handleFileSelect. rewrite Hv1, Hv2. simpl.
  repeat split; reflexivity.
Qed.

Lemma invalid_selection_keeps_previous_witness :
  handleUpload msg_no_video
    (handleFileSelect validateVideo (Some (mkFile "b.mkv" "video/x-matroska" 400000000))
       "blob:2"
       (handleFileSelect validateVideo (Some (mkFile "a.mp4" "video/mp4" 1000))
          "blob:1" initState)) =
  mkState (Some (mkFile "a.mp4" "video/mp4" 1000)) true EmptyString (Some "blob:1"%string).
Proof.
  apply (invalid_selection_keeps_previous validateVideo _ _ _ _ msg_video_size).
  - reflexivity.
  - vm_compute. reflexivity.
Defined.

Fixpoint select_all (validate : File -> Validation) (fs : list (File * string))
  (st : State) : State :=
  match fs with
  | [] => st
  | (f, u) :: t => select_all validate t (handleFileSelect validate (Some f) u st)
  end.

(** On a fresh page, after any number of rejected selections, nothing is
    selected and [handleUpload] reports the missing-file message without
    signalling success. *)
Theorem upload_without_valid_file (validate : File -> Validation)
  (fs : list (File * string)) (msg_none : string)
  (Hinv : Forall (fun fu => validate (fst fu) <> Valid) fs) :
  selectedFile (select_all validate fs initState) = None /\
  handleUpload msg_none (select_all validate fs initState) =
    mkState None false msg_none (mediaUrl initState).
Proof.
  assert (H : forall st, selectedFile st = None -> uploadSuccess st = false ->
            mediaUrl st = None ->
            selectedFile (select_all validate fs st) = None /\
            uploadSuccess (select_all validate fs st) = false /\
            mediaUrl (select_all validate fs st) = None).
  { induction Hinv as [|[f u] t Hf Ht IH]; intros st H1 H2 H3; simpl.
    - auto.
    - apply IH; unfold handleFileSelect; simpl in Hf;
        destruct (validate f); try congruence; simpl; assumption. }
  destruct (H initState eq_refl eq_refl eq_refl) as (H1 & H2 & H3).
  split; [exact H1|]. unfold handleUpload. rewrite H1, H2, H3. reflexivity.
Qed.

Lemma upload_without_valid_file_witness :
  handleUpload msg_no_audio
    (select_all validateAudio [(mkFile "x.txt" "text/plain" 3, "blob:9"%string)] initState) =
  mkState None false msg_no_audio None.
Proof.
  apply upload_without_valid_file.
  constructor; [vm_compute; discriminate|constructor].
Defined.

End UploadFacts.

(** ** Playback controls *)

Module PlaybackFacts.
Import Playback.

(** [togglePlayPause] with an engine exposing [isPlaying] flips the
    engine between playing and paused and leaves the UI flag equal to the
    engine's new state; two toggles give back the engine's original state.
    An engine without [isPlaying] is only ever told to play. *)
Theorem togglePlayPause_flips (e : Engine) (ui : bool) :
  (has_isPlaying e = true ->
     togglePlayPause (mkControls (Some e) ui) =
       mkControls (Some (mkEngine true (negb (playing e)))) (negb (playing e)) /\
     engine (togglePlayPause (togglePlayPause (mkControls (Some e) ui))) =
       Some e) /\
  (has_isPlaying e = false ->
     togglePlayPause (mkControls (Some e) ui) =
       mkControls (Some (mkEngine false true)) true) /\
  togglePlayPause (mkControls None ui) = mkControls None ui.
Proof.
  destruct e as [[|] [|]]; simpl; (split; [|split]);
    try (intros Hm; discriminate Hm); try reflexivity;
    intros _; try split; reflexivity.
Qed.

Lemma togglePlayPause_flips_witness :
  togglePlayPause (mkControls (Some (mkEngine true true)) true) =
    mkControls (Some (mkEngine true false)) false.
Proof.
  destruct (togglePlayPause_flips (mkEngine true true) true) as [H _].
  destruct (H eq_refl) as [H1 _]. exact H1.
Defined.

(** [skipTime] asks the engine for a time inside [0, duration] (for a
    non-negative duration), exactly [currentTime + seconds] when that is
    already inside, and asks nothing without an engine. *)
Theorem skipTime_in_range (ct d sec : Q) (Hd : 0 <= d) :
  (exists t, skipTime true ct d sec = Some t /\ 0 <= t /\ t <= d) /\
  (0 <= ct + sec -> ct + sec <= d ->
     exists t, skipTime true ct d sec = Some t /\ t == ct + sec) /\
  skipTime false ct d sec = None.
Proof.
  unfold skipTime. split; [|split].
  - eexists. split; [reflexivity|]. split; [apply Q.le_max_l|].
    apply Q.max_lub; [exact Hd|apply Q.le_min_l].
  - intros H0 H1. eexists. split; [reflexivity|].
    rewrite Q.min_r by exact H1. rewrite Q.max_r by exact H0. reflexivity.
  - reflexivity.
Qed.

Lemma skipTime_in_range_witness :
  skipTime true 3 8 (-10) = Some 0 /\ skipTime true 3 8 2 = Some 5.
Proof.
  destruct (skipTime_in_range 3 8 (-10) ltac:(discriminate)) as ((t & Ht & _) & _).
  destruct (skipTime_in_range 3 8 2 ltac:(discriminate)) as (_ & H2 & _).
  destruct (H2 ltac:(discriminate) ltac:(discriminate)) as (t2 & Ht2 & _).
  split; [rewrite Ht; vm_compute in Ht |- *|rewrite Ht2; vm_compute in Ht2 |- *];
    congruence.
Defined.

(** One [checkPlayState] tick: once cancelled, or when the engine's play
    state equals the last one seen, it changes nothing (the video is then
    not re-synchronised); otherwise it records the new state, shows it in
    the UI, and leaves the video paused exactly when the engine is paused
    (a refused [play()] leaves it paused). A second tick on the same
    reading changes nothing. *)
Theorem checkPlayState_mirrors (playing play_ok : bool) (p : Poll) :
  (cancelled p = true -> checkPlayState playing play_ok p = p) /\
  (playing = wasPlaying p -> checkPlayState playing play_ok p = p) /\
  (cancelled p = false -> playing <> wasPlaying p ->
     wasPlaying (checkPlayState playing play_ok p) = playing /\
     pollUi (checkPlayState playing play_ok p) = playing /\
     (videoPaused p = None -> videoPaused (checkPlayState playing play_ok p) = None) /\
     (forall paused, videoPaused p = Some paused ->
        videoPaused (checkPlayState playing play_ok p) =
          Some (if playing && paused then negb play_ok else negb playing))) /\
  checkPlayState playing play_ok (checkPlayState playing play_ok p) =
    checkPlayState playing play_ok p.
Proof.
  destruct p as [c w u v]; unfold checkPlayState; simpl.
  split; [intros H; subst c; reflexivity|].
  split; [intros H; subst w; rewrite eqb_reflx; destruct c; reflexivity|].
  split.
  - intros Hc Hne. subst c. destruct (Bool.eqb playing w) eqn:E.
    + apply eqb_prop in E. contradiction.
    + simpl. split; [reflexivity|]. split; [reflexivity|].
      split; [intros H; subst v; reflexivity|].
      intros paused H. subst v.
      destruct playing, paused, play_ok; reflexivity.
  - destruct c, playing, w, play_ok, v as [[|]|]; reflexivity.
Qed.

Lemma checkPlayState_mirrors_witness :
  checkPlayState true true (mkPoll false false false (Some true)) =
    mkPoll false true true (Some false).
Proof.
  destruct (checkPlayState_mirrors true true (mkPoll false false false (Some true)))
    as (_ & _ & H3 & _).
  destruct (H3 eq_refl ltac:(discriminate)) as (H1 & H2 & _ & H4).
  specialize (H4 true eq_refl).
  destruct (checkPlayState true true (mkPoll false false false (Some true)))
    as [c' w' u' v'] eqn:E.
  simpl in H1, H2, H4. subst. vm_compute in E. inversion E. reflexivity.
Defined.

Lemma canplay_n_S (k : nat) (l : Loading) :
  canplay_n (S k) l = checkAllTracksReady (canplay_n k l).
Proof. revert l; induction k; intros l; [reflexivity|]. apply IHk. Qed.

(** During one multitrack setup, after [k] ['canplay'] events the counter
    is [k], [tracksReady] has become true once [k] reaches 3 (and keeps its
    earlier value before), and the timer that attaches the regions plugin
    has been scheduled once, at the first event. *)
Theorem canplay_ready_after_three (k : nat) (r : bool) :
  tracksLoaded (canplay_n k (setupLoading r)) = k /\
  tracksReady (canplay_n k (setupLoading r)) = (r || (3 <=? k)%nat) /\
  regionsPluginReady (canplay_n k (setupLoading r)) = (1 <=? k)%nat /\
  pluginTimers (canplay_n k (setupLoading r)) = Nat.min k 1.
Proof.
  induction k as [|k IH].
  - simpl. rewrite orb_false_r. repeat split.
  - rewrite canplay_n_S. destruct IH as (H1 & H2 & H3 & H4).
    destruct (canplay_n k (setupLoading r)) as [n rp tr t]; simpl in *.
    subst. unfold checkAllTracksReady; simpl.
    destruct k as [|[|[|k]]]; simpl; rewrite ?orb_true_r, ?orb_false_r;
      repeat split; try reflexivity.
Qed.

Lemma Qfloor_plus_Z (x : Q) (k : Z) :
  Qfloor (x + inject_Z k) = (Qfloor x + k)%Z.
Proof.
  destruct x as [p q]. unfold Qplus, inject_Z, Qfloor; simpl.
  rewrite Pos.mul_1_r, Z.mul_1_r. apply Z.div_add. lia.
Qed.

Lemma Qfloor_div60 (s : Q) : Qfloor (s / 60) = (Qfloor s / 60)%Z.
Proof.
  destruct s as [p q]. unfold Qdiv, Qmult, Qinv, Qfloor; simpl.
  rewrite Z.mul_1_r, Pos2Z.inj_mul. symmetry. apply Z.div_div; lia.
Qed.

Lemma Qfloor_nonneg (s : Q) : 0 <= s -> (0 <= Qfloor s)%Z.
Proof.
  intros Hs. destruct s as [p q]. unfold Qle in Hs; simpl in Hs.
  unfold Qfloor. apply Z.div_pos; lia.
Qed.

Lemma Z_to_string_nonneg (z : Z) :
  (0 <= z)%Z -> Z_to_string z = Regions.N_to_string (Z.to_N z).
Proof.
  intros H. unfold Z_to_string. destruct (z <? 0)%Z eqn:E; [lia|reflexivity].
Qed.

Lemma pad_two_digits (k : Z) :
  (0 <= k < 60)%Z ->
  String.length (padStart2 (Regions.N_to_string (Z.to_N k))) = 2%nat.
Proof.
  intros Hk. assert (Hn : exists n, k = Z.of_nat n /\ (n < 60)%nat)
    by (exists (Z.to_nat k); lia).
  destruct Hn as (n & -> & Hn).
  do 60 (destruct n as [|n]; [reflexivity|]). lia.
Qed.

(** [formatTime] on a non-negative time [s] prints the whole minutes of
    [floor s], a colon, and the remaining whole seconds ([< 60]) padded to
    exactly two digits ([125] gives ["2:05"]). *)
Theorem formatTime_minutes_seconds (s : Q) (Hs : 0 <= s) :
  formatTime s =
    (Regions.N_to_string (Z.to_N (Qfloor s / 60)) ++ ":" ++
     padStart2 (Regions.N_to_string (Z.to_N (Qfloor s mod 60))))%string /\
  (0 <= Qfloor s mod 60 < 60)%Z /\
  String.length (padStart2 (Regions.N_to_string (Z.to_N (Qfloor s mod 60)))) = 2%nat.
Proof.
  pose proof (Qfloor_nonneg s Hs) as Hf.
  assert (Hm : (0 <= Qfloor s mod 60 < 60)%Z) by (apply Z.mod_pos_bound; lia).
  split; [|split; [exact Hm|apply pad_two_digits; exact Hm]].
  unfold formatTime.
  rewrite Qfloor_div60.
  assert (Ht : Qtrunc (s / 60) = (Qfloor s / 60)%Z).
  { unfold Qtrunc. replace (Qle_bool 0 (s / 60)) with true.
    - apply Qfloor_div60.
    - symmetry. apply Qle_bool_iff. apply Qmult_le_0_compat; [exact Hs|].
      discriminate. }
  unfold js_mod. rewrite Ht.
  rewrite (Qfloor_comp (s - 60 * inject_Z (Qfloor s / 60))
    (s + inject_Z (- (60 * (Qfloor s / 60)))))
    by (rewrite inject_Z_opp, inject_Z_mult; change (inject_Z 60) with 60; ring).
  rewrite Qfloor_plus_Z.
  replace (Qfloor s + - (60 * (Qfloor s / 60)))%Z with (Qfloor s mod 60)%Z
    by (rewrite Z.mod_eq; lia).
  rewrite !Z_to_string_nonneg by (try apply Z.div_pos; lia).
  reflexivity.
Qed.

Lemma formatTime_minutes_seconds_witness :
  formatTime 125 = "2:05"%string.
Proof.
  destruct (formatTime_minutes_seconds 125 ltac:(discriminate)) as [H _].
  rewrite H. vm_compute. reflexivity.
Defined.

End PlaybackFacts.

(** ** Resetting the video page *)

Module VideoResetFacts.
Import VideoReset.

(** Membership of a command in a concrete command list. *)
Ltac mem_elim H :=
  repeat destruct H as [H|H]; try discriminate; try contradiction;
  try (inversion H; subst; reflexivity).

Ltac mem_intro := solve [repeat (first [left; reflexivity | right])].

(** VideoReset.resetUpload releases exactly what the page holds.
    - It revokes the video URL, and only that one.
    - It destroys the engine iff one exists.
    - It pauses the engine first iff the engine reports that it is playing.
    - It always ends by clearing the track references, scheduling the
      URL clear and clearing the file input.
    - It leaves no engine behind, and the timer then clears the URL. *)
Theorem resetUpload_video_releases (p : Page) :
  (forall u, In (RevokeUrl u) (fst (resetUpload p)) <-> videoUrl p = Some u) /\
  (In EngDestroy (fst (resetUpload p)) <-> multitrack p <> None) /\
  (In EngPause (fst (resetUpload p)) <->
     exists e, multitrack p = Some e /\
       Playback.has_isPlaying e = true /\ Playback.playing e = true) /\
  (exists pre, fst (resetUpload p) =
     pre ++ [ClearTrackRefs; ScheduleClearVideoUrl; ClearFileInput]) /\
  multitrack (snd (resetUpload p)) = None /\
  videoUrl (clearVideoUrl (snd (resetUpload p))) = None.
Proof.
  destruct p as [m ve vu up pl ct du tr tks rgs sel plg]; unfold resetUpload;
    cbn [fst snd multitrack videoElement videoUrl clearVideoUrl].
  split; [|split; [|split; [|split; [|split]]]].
  - intros u. destruct m as [[[|] [|]]|], ve, vu as [v|]; cbn;
      split; intros H;
      first [discriminate | inversion H; subst; mem_intro | mem_elim H].
  - destruct m as [[[|] [|]]|], ve, vu as [v|]; cbn;
      split; intros H; try (mem_elim H; fail);
      try discriminate; try mem_intro; exfalso; apply H; reflexivity.
  - destruct m as [[[|] [|]]|], ve, vu as [v|]; cbn;
      split; intros H; try (mem_elim H; fail);
      try (eexists; split; [reflexivity|split; reflexivity]);
      destruct H as (e & He & H1 & H2); inversion He; subst; cbn in *;
      first [mem_intro | discriminate].
  - eexists. rewrite !app_assoc. reflexivity.
  - reflexivity.
  - reflexivity.
Qed.

(** When the engine reports that it is playing, it is paused before
    it is destroyed: these are the first two commands of the reset. *)
Theorem resetUpload_pauses_before_destroy (p : Page) (e : Playback.Engine)
  (He : multitrack p = Some e)
  (Hp : Playback.has_isPlaying e && Playback.playing e = true) :
  exists rest, fst (resetUpload p) = EngPause :: EngDestroy :: rest.
Proof.
  unfold resetUpload. rewrite He, Hp. eexists. reflexivity.
Qed.

Lemma resetUpload_pauses_before_destroy_witness :
  exists rest,
    fst (resetUpload
      (mkPage (Some (Playback.mkEngine true true)) true (Some "blob:v"%string)
         Upload.initState true 3 10 true Tracks.initialTracks [] None None))
    = EngPause :: EngDestroy :: rest.
Proof.
  apply (resetUpload_pauses_before_destroy _ (Playback.mkEngine true true));
    reflexivity.
Defined.

(** Reset, then the 50 ms timer, then reset again: the second reset
    destroys nothing and revokes nothing; it only resets the video
    element, if there is one, and clears the refs and the input. The
    page does not change. *)
Theorem resetUpload_twice (p : Page) :
  let p1 := clearVideoUrl (snd (resetUpload p)) in
  fst (resetUpload p1) =
    (if videoElement p then [VidPause; VidSeek0; VidClearSrc; VidLoad] else [])
    ++ [ClearTrackRefs; ScheduleClearVideoUrl; ClearFileInput] /\
  snd (resetUpload p1) = p1.
Proof.
  destruct p as [m ve vu [sf us er mu] pl ct du tr tks rgs sel plg].
  cbn. split; reflexivity.
Qed.

End VideoResetFacts.

(** ** The audio page: reset, download and region removal *)

Module AudioPageFacts.
Import AudioPage.

(** AudioPage.resetUpload revokes the audio URL and the trimmed-audio URL
    it holds, and no other URL. It destroys the waveform iff one exists,
    and always ends by clearing the file input. Afterwards the page holds
    no URL, no file, no waveform and no region. The plugin ref is cleared
    only together with a waveform; without one, the ref is kept. *)
Theorem resetUpload_audio_releases (p : Page) :
  (forall u, In (RevokeUrl u) (fst (resetUpload p)) <->
     Upload.mediaUrl (upload p) = Some u \/ trimmedAudioUrl p = Some u) /\
  (In WsDestroy (fst (resetUpload p)) <-> wavesurfer p = true) /\
  last (fst (resetUpload p)) WsDestroy = ClearFileInput /\
  Upload.mediaUrl (upload (snd (resetUpload p))) = None /\
  Upload.selectedFile (upload (snd (resetUpload p))) = None /\
  trimmedAudioUrl (snd (resetUpload p)) = None /\
  wavesurfer (snd (resetUpload p)) = false /\
  regions (snd (resetUpload p)) = [] /\
  regionsPlugin (snd (resetUpload p)) =
    (if wavesurfer p then None else regionsPlugin p).
Proof.
  destruct p as [[sf us er mu] tu ws plg rgs]; unfold resetUpload;
    cbn [fst snd upload trimmedAudioUrl wavesurfer regionsPlugin regions
         Upload.mediaUrl Upload.selectedFile Upload.initState].
  split; [|split; [|split]]; [| | |repeat split].
  - intros u. destruct mu as [a|], tu as [t|], ws; cbn;
      split; intros H; repeat destruct H as [H|H]; try discriminate;
      try contradiction; try (inversion H; subst); tauto.
  - destruct mu as [a|], tu as [t|], ws; cbn; split; intros H;
      repeat destruct H as [H|H]; try discriminate; try contradiction;
      tauto.
  - destruct mu as [a|], tu as [t|], ws; reflexivity.
Qed.

(** The download name is ["trimmed_" ++ name ++ ".wav"] for a selected
    file with a non-empty name, and ["trimmed_audio.wav"] when there is no
    file or the name is empty. Without trimmed audio nothing is
    downloaded. *)
Theorem downloadTrimmedAudio_name (u : string) (f : Upload.File)
  (Hn : Upload.fname f <> EmptyString) :
  downloadTrimmedAudio (Some u) (Some f) =
    Some ("trimmed_" ++ Upload.fname f ++ ".wav")%string /\
  downloadTrimmedAudio (Some u) None = Some "trimmed_audio.wav"%string /\
  downloadTrimmedAudio (Some u)
    (Some (Upload.mkFile EmptyString (Upload.ftype f) (Upload.fsize f)))
    = Some "trimmed_audio.wav"%string /\
  (forall sf, downloadTrimmedAudio None sf = None).
Proof.
  unfold downloadTrimmedAudio. cbn [Upload.fname].
  destruct (String.eqb_spec (Upload.fname f) EmptyString) as [E|_];
    [contradiction|].
  repeat split; reflexivity.
Qed.

Lemma downloadTrimmedAudio_name_witness :
  downloadTrimmedAudio (Some "blob:t"%string)
    (Some (Upload.mkFile "song.mp3" "audio/mpeg" 1000))
  = Some "trimmed_song.mp3.wav"%string.
Proof.
  apply (downloadTrimmedAudio_name "blob:t" (Upload.mkFile "song.mp3" "audio/mpeg" 1000)).
  discriminate.
Defined.

Lemma find_none_wid (i : string) (rs : list PlRegion) :
  ~ In i (map wid rs) -> find (fun r => String.eqb (wid r) i) rs = None.
Proof.
  induction rs as [|r t IH]; cbn; intros H; [reflexivity|].
  destruct (String.eqb_spec (wid r) i); [tauto|]. apply IH. tauto.
Qed.

Lemma assoc_none_wid (i : string) (kv : list (string * PlRegion)) :
  Forall (fun kr => fst kr = wid (snd kr)) kv ->
  ~ In i (map wid (map snd kv)) -> assoc i kv = None.
Proof.
  induction kv as [|[k v] t IH]; cbn; intros Hk H; [reflexivity|].
  inversion Hk as [|? ? Hkv Ht]; subst; cbn in Hkv; subst k.
  destruct (String.eqb_spec i (wid v)); [subst; tauto|]. apply IH; tauto.
Qed.

Lemma syncRegions_ids (c : Collection) :
  map Trim.id (syncRegions c) = map wid (values c).
Proof. unfold syncRegions. rewrite map_map. reflexivity. Qed.

Lemma remove_first_wid_split (i : string) (rs : list PlRegion) :
  In i (map wid rs) ->
  exists pre r post, rs = pre ++ r :: post /\ wid r = i /\
    ~ In i (map wid pre) /\ remove_first_wid i rs = pre ++ post.
Proof.
  induction rs as [|r t IH]; cbn; intros H; [contradiction|].
  destruct (String.eqb_spec (wid r) i) as [E|E].
  - exists [], r, t. cbn. auto.
  - destruct H as [H|H]; [contradiction|].
    destruct (IH H) as (pre & r' & post & -> & Hr & Hpre & Hrem).
    exists (r :: pre), r', post. cbn. rewrite Hrem.
    repeat split; auto. intros [H'|H']; [congruence|contradiction].
Qed.

Lemma remove_key_split (i : string) (kv : list (string * PlRegion)) :
  Forall (fun kr => fst kr = wid (snd kr)) kv ->
  In i (map wid (map snd kv)) ->
  exists pre r post, map snd kv = pre ++ r :: post /\ wid r = i /\
    ~ In i (map wid pre) /\ map snd (remove_key i kv) = pre ++ post /\
    Forall (fun kr => fst kr = wid (snd kr)) (remove_key i kv).
Proof.
  induction kv as [|[k v] t IH]; cbn; intros Hk H; [contradiction|].
  inversion Hk as [|? ? Hkv Ht]; subst; cbn in Hkv; subst k.
  destruct (String.eqb_spec i (wid v)) as [E|E].
  - exists [], v, (map snd t). cbn. auto.
  - destruct H as [H|H]; [congruence|].
    destruct (IH Ht H) as (pre & r' & post & Hs & Hr & Hpre & Hrem & Hf).
    exists (v :: pre), r', post. cbn. rewrite Hs, Hrem.
    repeat split; auto.
    + intros [H'|H']; [congruence|contradiction].
Qed.

Lemma find_some_wid (i : string) (rs : list PlRegion) :
  In i (map wid rs) ->
  exists r, find (fun r => String.eqb (wid r) i) rs = Some r.
Proof.
  intros H. destruct (find (fun r => String.eqb (wid r) i) rs) eqn:E;
    [eauto|]. exfalso.
  induction rs as [|r t IH]; cbn in *; [contradiction|].
  destruct (String.eqb_spec (wid r) i); [discriminate|]. tauto.
Qed.

Lemma assoc_some_wid (i : string) (kv : list (string * PlRegion)) :
  Forall (fun kr => fst kr = wid (snd kr)) kv ->
  In i (map wid (map snd kv)) -> exists r, assoc i kv = Some r.
Proof.
  induction kv as [|[k v] t IH]; cbn; intros Hk H; [contradiction|].
  inversion Hk as [|? ? Hkv Ht]; subst; cbn in Hkv; subst k.
  destruct (String.eqb_spec i (wid v)); [eauto|]. apply IH; [exact Ht|].
  destruct H; [congruence|assumption].
Qed.

Ltac sync_split pre r post Hpre :=
  unfold syncRegions; cbn [values collection has_removeRegion region_has_remove];
  exists (map (fun r => Trim.mkRegion (wid r) (wstart r) (wend r)) pre),
    (Trim.mkRegion (wid r) (wstart r) (wend r)),
    (map (fun r => Trim.mkRegion (wid r) (wstart r) (wend r)) post);
  rewrite ?map_app; cbn [map];
  repeat split; try reflexivity; try assumption;
  try (rewrite map_map; exact Hpre).

(** removeRegion, on a plugin that keys its regions by id:
    - With no plugin, nothing happens.
    - If the id is not among the synced regions, the plugin is unchanged.
    - If the plugin has no way to remove the region, it is unchanged.
    - Otherwise the region list that 'region-removed' syncs is the old
      one, minus the first region with that id; the plugin stays well
      keyed and keeps its methods. *)
Theorem removeRegion_spec (i : string) (p : Plugin)
  (Hk : well_keyed (collection p)) :
  removeRegion i None = None /\
  (~ In i (map Trim.id (syncRegions (collection p))) ->
     removeRegion i (Some p) = Some p) /\
  (has_removeRegion p || region_has_remove p = false ->
     removeRegion i (Some p) = Some p) /\
  (In i (map Trim.id (syncRegions (collection p))) ->
   has_removeRegion p || region_has_remove p = true ->
   exists p' pre r post,
     removeRegion i (Some p) = Some p' /\
     syncRegions (collection p) = pre ++ r :: post /\ Trim.id r = i /\
     ~ In i (map Trim.id pre) /\
     syncRegions (collection p') = pre ++ post /\
     well_keyed (collection p') /\
     has_removeRegion p' = has_removeRegion p /\
     region_has_remove p' = region_has_remove p).
Proof.
  rewrite !syncRegions_ids.
  destruct p as [c hr rr]; cbn [collection has_removeRegion region_has_remove]
    in *.
  split; [reflexivity|]. split; [|split].
  - intros Hn. unfold removeRegion; cbn.
    destruct c as [rs|kv|]; cbn in Hn.
    + rewrite find_none_wid by exact Hn. reflexivity.
    + rewrite assoc_none_wid by assumption. reflexivity.
    + reflexivity.
  - intros Hm. unfold removeRegion; cbn. rewrite Hm.
    destruct c as [rs|kv|]; cbn;
      [destruct (find _ rs)|destruct (assoc i kv)|]; reflexivity.
  - intros Hin Hm. unfold removeRegion; cbn. rewrite Hm.
    destruct c as [rs|kv|]; cbn in Hin |- *; [| |contradiction].
    + destruct (find_some_wid i rs Hin) as [r0 Hf]. rewrite Hf.
      destruct (remove_first_wid_split i rs Hin)
        as (pre & r & post & -> & Hr & Hpre & Hrem).
      exists (mkPlugin (CArray (pre ++ post)) hr rr). rewrite Hrem.
      sync_split pre r post Hpre.
    + destruct (assoc_some_wid i kv Hk Hin) as [r0 Hf]. rewrite Hf.
      destruct (remove_key_split i kv Hk Hin)
        as (pre & r & post & Hs & Hr & Hpre & Hrem & Hf').
      exists (mkPlugin (CObject (remove_key i kv)) hr rr).
      unfold syncRegions; cbn [values collection]. rewrite Hs, Hrem.
      sync_split pre r post Hpre.
Qed.

Lemma removeRegion_spec_witness :
  exists p' pre r post,
    removeRegion "r2"
      (Some (mkPlugin (CObject [("r1"%string, mkPlRegion "r1" 0 1 "c");
                                ("r2"%string, mkPlRegion "r2" 2 3 "c")]) false true))
      = Some p' /\
    syncRegions (CObject [("r1"%string, mkPlRegion "r1" 0 1 "c");
                          ("r2"%string, mkPlRegion "r2" 2 3 "c")]) = pre ++ r :: post /\
    Trim.id r = "r2"%string /\ ~ In "r2"%string (map Trim.id pre) /\
    syncRegions (collection p') = pre ++ post /\
    well_keyed (collection p') /\
    has_removeRegion p' = false /\ region_has_remove p' = true.
Proof.
  apply (proj2 (proj2 (proj2 (removeRegion_spec "r2"
    (mkPlugin (CObject [("r1"%string, mkPlRegion "r1" 0 1 "c");
                        ("r2"%string, mkPlRegion "r2" 2 3 "c")]) false true)
    ltac:(repeat constructor))))).
  - cbn. right. left. reflexivity.
  - reflexivity.
Defined.

End AudioPageFacts.

(** ** [trimAudio]: processing flag, outcomes and init failure *)

Module TrimOutcomes.
Import Trim.

Ltac mem_intro := solve [repeat (first [left; reflexivity | right])].

Lemma trimAudio_cases (st : State) (init_ok : bool) (r : TryOutcome) :
  (trimAudio st init_ok r = [SetError msg_select] /\
   (selectedFile st = false \/ regions st = [])) \/
  (trimAudio st init_ok r = [InitFFmpeg; SetError msg_load; SetError msg_init] /\
   selectedFile st = true /\ regions st <> [] /\
   ffmpegLoaded st = false /\ init_ok = false) \/
  (exists pre, (pre = [] \/ pre = [InitFFmpeg]) /\
   selectedFile st = true /\ regions st <> [] /\
   ffmpegLoaded st || init_ok = true /\
   trimAudio st init_ok r =
     pre ++ [SetIsProcessing true; SetError EmptyString] ++
     tryBlock (filterComplex (regions st)) r ++ [SetIsProcessing false]).
Proof.
  destruct st as [sf rs fl ip]; unfold trimAudio; cbn [selectedFile regions
    ffmpegLoaded].
  destruct sf; cbn [negb orb].
  2: left; split; [reflexivity|left; reflexivity].
  destruct rs as [|x rs]; cbn [length Nat.eqb].
  1: left; split; [reflexivity|right; reflexivity].
  right. destruct fl, init_ok; cbn [negb andb orb].
  - right. exists []. repeat split; auto; discriminate.
  - right. exists []. repeat split; auto; discriminate.
  - right. exists [InitFFmpeg]. repeat split; auto; discriminate.
  - left. repeat split; auto; discriminate.
Qed.





(** When the processor is not loaded and loading it fails, trimAudio
    initialises, reports the load error, then the init error, and stops:
    the flag is never set and FFmpeg never runs. *)
Theorem trimAudio_init_failure (st : State) (r : TryOutcome)
  (Hf : selectedFile st = true) (Hr : regions st <> [])
  (Hl : ffmpegLoaded st = false) :
  trimAudio st false r = [InitFFmpeg; SetError msg_load; SetError msg_init].
Proof.
  destruct (trimAudio_cases st false r) as
    [[_ [H|H]]|[[H _]|(pre & _ & _ & _ & Hp & _)]];
    [congruence|congruence|exact H|rewrite Hl in Hp; discriminate].
Qed.

Lemma trimAudio_init_failure_witness :
  trimAudio (mkState true [mkRegion "r" 1 2] false false) false TryOk =
    [InitFFmpeg; SetError msg_load; SetError msg_init].
Proof.
  apply trimAudio_init_failure; [reflexivity|discriminate|reflexivity].
Defined.

End TrimOutcomes.

(** ** Region operations: selection, round trips and frames *)

Module RegionsOps.
Import Regions RegionsSync.

Lemma step_selectedRegion_none (ev : Event) (st : State) :
  selectedRegion st = None -> selectedRegion (step ev st) = None.
Proof.
  intros H. destruct ev as [now r|rid s e|rid| |rid c| | | |t|d];
    cbn [step]; try exact H; try reflexivity.
  - unfold addRegion. destruct (plugin st); exact H.
  - unfold updateRegionTime. destruct (plugin st) as [ps|]; [|exact H].
    destruct (find (pid_is rid) ps); exact H.
  - unfold deleteRegion. destruct (plugin st) as [ps|]; [|exact H].
    destruct (find (pid_is rid) ps); [|exact H]. cbn. rewrite H. reflexivity.
  - unfold clearAllRegions. destruct (plugin st); [reflexivity|exact H].
Qed.

Lemma reachable_no_selection (st : State) :
  reachable st -> selectedRegion st = None.
Proof.
  induction 1 as [|ev st Hr IH Hf]; [reflexivity|].
  apply step_selectedRegion_none. exact IH.
Qed.

(** No code path of the page ever selects a region: in every reachable
    state [selectedRegion] is [null], so the highlight ring of the
    selected region is never drawn. *)
Theorem selectedRegion_always_null (st : State) (Hreach : reachable st) :
  selectedRegion st = None.
Proof. exact (reachable_no_selection st Hreach). Qed.

Lemma selectedRegion_always_null_witness :
  selectedRegion (step (EvDelete "region-7") (step (EvAdd 7 0)
    (step EvAttachPlugin initState))) = None.
Proof.
  apply selectedRegion_always_null.
  apply reach_step; [|exact I].
  apply reach_step; [|vm_compute; intros H; exact H].
  apply reach_step; [apply reach_init|exact I].
Defined.

Lemma find_app_none {A} (f : A -> bool) (l : list A) (x : A) :
  find f l = None -> find f (l ++ [x]) = if f x then Some x else None.
Proof.
  induction l as [|y t IH]; cbn; intros H; [reflexivity|].
  destruct (f y); [discriminate|]. apply IH. exact H.
Qed.

Lemma remove_first_snoc (rid : string) (ps : list PRegion) (x : PRegion) :
  find (pid_is rid) ps = None -> pid_is rid x = true ->
  remove_first rid (ps ++ [x]) = ps.
Proof.
  induction ps as [|y t IH]; cbn; intros H Hx; [rewrite Hx; reflexivity|].
  destruct (pid_is rid y); [discriminate|]. rewrite IH; auto.
Qed.

Lemma filter_keep_all (rid : string) (rs : list Region) :
  ~ In rid (map id rs) ->
  filter (fun r => negb (String.eqb (id r) rid)) rs = rs.
Proof.
  induction rs as [|r t IH]; cbn; intros H; [reflexivity|].
  destruct (String.eqb_spec (id r) rid); [tauto|]. cbn. rewrite IH; tauto.
Qed.

(** Adding a region and then deleting it gives back the state before
    the add, in every reachable state with a regions plugin: the plugin
    regions, the region list, the selection, the time and the duration. *)
Theorem addRegion_deleteRegion_roundtrip (now : N) (r : Q) (st : State)
  (Hreach : reachable st) (Hp : plugin st <> None)
  (Hfresh : ~ In (regionIdOf now) (map id (regions st))) :
  deleteRegion (regionIdOf now) (snd (addRegion now r st)) = st.
Proof.
  pose proof (reachable_synced st Hreach) as Hs.
  pose proof (reachable_no_selection st Hreach) as Hsel.
  destruct (plugin st) as [ps|] eqn:Hps; [|contradiction].
  pose proof (synced_find_none st ps _ Hs Hps Hfresh) as Hnone.
  unfold addRegion. rewrite Hps. cbn [snd]. unfold deleteRegion.
  cbn [plugin regions selectedRegion currentTime duration].
  assert (Hx : pid_is (regionIdOf now)
    (mkPRegion (regionIdOf now) (currentTime st)
       (Qmin (currentTime st + default_length) (duration st))
       "New subtitle" (pick_color r)) = true)
    by (unfold pid_is; cbn; apply String.eqb_refl).
  rewrite (find_app_none _ _ _ Hnone), Hx.
  rewrite (remove_first_snoc _ _ _ Hnone Hx).
  rewrite filter_app, (filter_keep_all _ _ Hfresh). cbn.
  rewrite String.eqb_refl. cbn. rewrite app_nil_r, Hsel.
  destruct st; cbn in *; subst; reflexivity.
Qed.

Lemma addRegion_deleteRegion_roundtrip_witness :
  deleteRegion (regionIdOf 9) (snd (addRegion 9 (1 # 2) st_one)) = st_one.
Proof.
  apply addRegion_deleteRegion_roundtrip.
  - apply reach_step; [|vm_compute; intros H; exact H].
    apply reach_step; [apply reach_init|exact I].
  - discriminate.
  - vm_compute. intros [H|[]]. discriminate.
Defined.

Lemma find_update_first (rid : string) (f : PRegion -> PRegion) ps p :
  (forall q, pid (f q) = pid q) ->
  find (pid_is rid) ps = Some p ->
  find (pid_is rid) (update_first rid f ps) = Some (f p).
Proof.
  intros Hf. induction ps as [|q t IH]; cbn; [discriminate|].
  destruct (pid_is rid q) eqn:E; intros H.
  - inversion H; subst. cbn. unfold pid_is in *. rewrite Hf. rewrite E.
    reflexivity.
  - cbn. rewrite E. apply IH. exact H.
Qed.

Lemma update_first_idem (rid : string) (f : PRegion -> PRegion) ps :
  (forall q, pid (f q) = pid q) -> (forall q, f (f q) = f q) ->
  update_first rid f (update_first rid f ps) = update_first rid f ps.
Proof.
  intros Hf Hff. induction ps as [|q t IH]; cbn; [reflexivity|].
  destruct (pid_is rid q) eqn:E; cbn.
  - unfold pid_is in *. rewrite Hf, E, Hff. reflexivity.
  - rewrite E, IH. reflexivity.
Qed.

(** Moving a region twice to the same times is the same as moving it
    once: the clamped times of the second call are those of the first. *)
Theorem updateRegionTime_idempotent (rid : string) (s e : Q) (st : State) :
  updateRegionTime rid s e (updateRegionTime rid s e st) =
  updateRegionTime rid s e st.
Proof.
  unfold updateRegionTime at 2 3.
  destruct (plugin st) as [ps|] eqn:Hp; [|unfold updateRegionTime; rewrite Hp; reflexivity].
  destruct (find (pid_is rid) ps) as [p|] eqn:Hf;
    [|unfold updateRegionTime; rewrite Hp, Hf; reflexivity].
  unfold updateRegionTime; cbn [plugin regions selectedRegion currentTime duration].
  rewrite (find_update_first rid _ ps p) by (reflexivity || exact Hf).
  rewrite update_first_idem by reflexivity.
  rewrite map_map. f_equal. apply map_ext. intros x.
  destruct (String.eqb (id x) rid) eqn:E; cbn; rewrite ?E; reflexivity.
Qed.

(** updateRegionTime changes region times and nothing else.
    - Every region keeps its id, content and color, in the same order.
    - A region with another id is unchanged.
    - The plugin keeps its region ids, contents and colors.
    - The selection, the current time and the duration are unchanged. *)
Theorem updateRegionTime_frame (rid : string) (s e : Q) (st : State) :
  Forall2 (fun r r' => id r' = id r /\ content r' = content r /\
             color r' = color r /\ (id r <> rid -> r' = r))
    (regions st) (regions (updateRegionTime rid s e st)) /\
  option_map (map (fun p => (pid p, pcontent p, pcolor p)))
    (plugin (updateRegionTime rid s e st)) =
  option_map (map (fun p => (pid p, pcontent p, pcolor p))) (plugin st) /\
  selectedRegion (updateRegionTime rid s e st) = selectedRegion st /\
  currentTime (updateRegionTime rid s e st) = currentTime st /\
  duration (updateRegionTime rid s e st) = duration st.
Proof.
  assert (Hrefl : forall rs, Forall2 (fun r r' : Region => id r' = id r /\
            content r' = content r /\ color r' = color r /\
            (id r <> rid -> r' = r)) rs rs).
  { induction rs; constructor; auto. }
  unfold updateRegionTime.
  destruct (plugin st) as [ps|] eqn:Hp; [|rewrite Hp; auto].
  destruct (find (pid_is rid) ps); [|rewrite Hp; auto].
  cbn [plugin regions selectedRegion currentTime duration option_map].
  repeat split; auto.
  - induction (regions st) as [|r t IH]; cbn; constructor; [|exact IH].
    destruct (String.eqb_spec (id r) rid); cbn; auto 6.
    repeat split; auto. intros H; contradiction.
  - f_equal. clear Hp. induction ps as [|q t IH]; cbn; [reflexivity|].
    destruct (pid_is rid q); cbn; [reflexivity|]. rewrite IH. reflexivity.
Qed.

(** clearAllRegions empties the plugin, the list and the selection when
    the plugin exists, keeps the time and the duration, and does nothing
    without a plugin. Afterwards deleting or moving any region is a
    no-op. *)
Theorem clearAllRegions_spec (st : State) :
  (plugin st = None -> clearAllRegions st = st) /\
  (plugin st <> None ->
     plugin (clearAllRegions st) = Some [] /\
     regions (clearAllRegions st) = [] /\
     selectedRegion (clearAllRegions st) = None /\
     currentTime (clearAllRegions st) = currentTime st /\
     duration (clearAllRegions st) = duration st) /\
  (forall rid s e,
     deleteRegion rid (clearAllRegions st) = clearAllRegions st /\
     updateRegionTime rid s e (clearAllRegions st) = clearAllRegions st).
Proof.
  unfold clearAllRegions.
  destruct (plugin st) as [ps|] eqn:Hp.
  - split; [discriminate|]. split; [intros _; repeat split|].
    intros rid s e. split; reflexivity.
  - split; [reflexivity|]. split; [contradiction|].
    intros rid s e. unfold deleteRegion, updateRegionTime. rewrite Hp.
    split; reflexivity.
Qed.

(** The subtitle text edit changes the content of the regions with that
    id and nothing else: ids, times and colors of the list and the
    plugin's ids and times stay, in the same order; the other fields of
    the state are unchanged. The list is edited even when the plugin is
    null. *)
Theorem editContent_frame (rid c : string) (st : State) :
  Forall2 (fun r r' => id r' = id r /\ start r' = start r /\
             end_ r' = end_ r /\ color r' = color r /\
             content r' = (if String.eqb (id r) rid then c else content r))
    (regions st) (regions (editContent rid c st)) /\
  option_map (map (fun p => (pid p, pstart p, pend p)))
    (plugin (editContent rid c st)) =
  option_map (map (fun p => (pid p, pstart p, pend p))) (plugin st) /\
  selectedRegion (editContent rid c st) = selectedRegion st /\
  currentTime (editContent rid c st) = currentTime st /\
  duration (editContent rid c st) = duration st.
Proof.
  unfold editContent; cbn [plugin regions selectedRegion currentTime duration].
  repeat split.
  - induction (regions st) as [|r t IH]; cbn; constructor; [|exact IH].
    destruct (String.eqb (id r) rid); cbn; repeat split.
  - destruct (plugin st) as [ps|]; cbn; [f_equal|reflexivity].
    induction ps as [|q t IH]; cbn; [reflexivity|].
    destruct (pid_is rid q); cbn; [reflexivity|]. rewrite IH. reflexivity.
Qed.

End RegionsOps.

(** ** The [updateTime] tick outside a live, video-backed run *)

Module SyncEdges.
Import Sync.

(** updateTime does nothing once the effect is cancelled or while
    there is no multitrack. Without a video element it only moves the
    UI time. It never changes the cancel flag or the multitrack ref, and
    never makes the video time appear or disappear. *)
Theorem updateTime_edges (t : Q) (st : State) :
  (isCancelled st = true \/ multitrackRef st = false -> updateTime t st = st) /\
  (isCancelled st = false -> multitrackRef st = true -> video st = None ->
     updateTime t st = mkState false true None t) /\
  isCancelled (updateTime t st) = isCancelled st /\
  multitrackRef (updateTime t st) = multitrackRef st /\
  (video (updateTime t st) = None <-> video st = None).
Proof.
  destruct st as [c m v u]; unfold updateTime;
    cbn [isCancelled multitrackRef video uiTime].
  destruct (c || negb m) eqn:Ecm.
  - split; [intros _; reflexivity|]. split; [|split; [|split]];
      try reflexivity.
    intros -> ->. discriminate.
  - assert (c = false /\ m = true) as [-> ->]
      by (destruct c, m; split; first [reflexivity | discriminate]).
    split; [intros [H|H]; discriminate|].
    destruct v as [vt|]; cbn [video isCancelled multitrackRef].
    + split; [intros _ _ H; discriminate|].
      destruct (Qgt_bool (Qabs (vt - t)) drift_threshold); cbn;
        repeat split; discriminate.
    + repeat split; reflexivity.
Qed.

End SyncEdges.

(** ** Which engine object receives a volume change *)

Module VolumeDispatchFacts.
Import VolumeDispatch.

Lemma search_spec (trackId : nat) (locs : list Location) :
  forall k,
  match search k trackId locs with
  | Some (ViaSetVolume k') =>
      exists d inst, k' = (k + d)%nat /\
        (match nth_error locs d with Some l => slot_of l trackId | None => None end)
          = Some inst /\ has_setVolume inst = true /\
        (forall j inst', (j < d)%nat ->
           (match nth_error locs j with Some l => slot_of l trackId | None => None end)
             = Some inst' -> usable inst' = false)
  | Some (ViaMedia k') =>
      exists d inst, k' = (k + d)%nat /\
        (match nth_error locs d with Some l => slot_of l trackId | None => None end)
          = Some inst /\ has_setVolume inst = false /\ has_media inst = true /\
        (forall j inst', (j < d)%nat ->
           (match nth_error locs j with Some l => slot_of l trackId | None => None end)
             = Some inst' -> usable inst' = false)
  | Some _ => False
  | None =>
      forall j inst,
        (match nth_error locs j with Some l => slot_of l trackId | None => None end)
          = Some inst -> usable inst = false
  end.
Proof.
  induction locs as [|l rest IH]; intros k; cbn [search].
  - intros [|j] inst; cbn; discriminate.
  - destruct (slot_of l trackId) as [inst|] eqn:Hs.
    + destruct (has_setVolume inst) eqn:Hv;
        [|destruct (has_media inst) eqn:Hm].
      * exists 0%nat, inst. repeat split; [lia|exact Hs|exact Hv|].
        intros j inst' Hj. lia.
      * exists 0%nat, inst. repeat split; [lia|exact Hs|exact Hv|exact Hm|].
        intros j inst' Hj. lia.
      * specialize (IH (S k)).
        assert (Hu : usable inst = false) by (unfold usable; rewrite Hv, Hm; reflexivity).
        destruct (search (S k) trackId rest) as [[k'|k'| |]|]; try exact IH.
        -- destruct IH as (d & i & -> & H1 & H2 & H3). exists (S d), i.
           repeat split; [lia|exact H1|exact H2|].
           intros [|j] i' Hj; cbn; [rewrite Hs; intros E; inversion E; subst; exact Hu|].
           apply H3. lia.
        -- destruct IH as (d & i & -> & H1 & H2 & H2' & H3). exists (S d), i.
           repeat split; [lia|exact H1|exact H2|exact H2'|].
           intros [|j] i' Hj; cbn; [rewrite Hs; intros E; inversion E; subst; exact Hu|].
           apply H3. lia.
        -- intros [|j] i'; cbn; [rewrite Hs; intros E; inversion E; subst; exact Hu|].
           apply IH.
    + specialize (IH (S k)).
      destruct (search (S k) trackId rest) as [[k'|k'| |]|]; try exact IH.
      * destruct IH as (d & i & -> & H1 & H2 & H3). exists (S d), i.
        repeat split; [lia|exact H1|exact H2|].
        intros [|j] i' Hj; cbn; [rewrite Hs; discriminate|]. apply H3. lia.
      * destruct IH as (d & i & -> & H1 & H2 & H2' & H3). exists (S d), i.
        repeat split; [lia|exact H1|exact H2|exact H2'|].
        intros [|j] i' Hj; cbn; [rewrite Hs; discriminate|]. apply H3. lia.
      * intros [|j] i'; cbn; [rewrite Hs; discriminate|]. apply IH.
Qed.

(** updateTrackVolume hands the volume to the first location, in the
    order wavesurfers, channels, players, ws, instances, that holds an
    instance for the track with [setVolume] or [media]; [setVolume] wins
    over [media]. An instance with neither does not stop the search.
    [multitrack.setTrackVolume] is used only when no location holds a
    usable instance, and without it the engine receives nothing. *)
Theorem engineTarget_first_usable (m : Engine) (tid : nat) :
  match engineTarget (Some m) tid with
  | ViaSetVolume k =>
      exists inst, slot m k tid = Some inst /\ has_setVolume inst = true /\
        (forall j inst', (j < k)%nat -> slot m j tid = Some inst' ->
           usable inst' = false)
  | ViaMedia k =>
      exists inst, slot m k tid = Some inst /\ has_setVolume inst = false /\
        has_media inst = true /\
        (forall j inst', (j < k)%nat -> slot m j tid = Some inst' ->
           usable inst' = false)
  | ViaTrackLevel =>
      has_setTrackVolume m = true /\
      (forall j inst, slot m j tid = Some inst -> usable inst = false)
  | NoTarget =>
      has_setTrackVolume m = false /\
      (forall j inst, slot m j tid = Some inst -> usable inst = false)
  end.
Proof.
  unfold engineTarget, slot. pose proof (search_spec tid (possibleLocations m) 0) as H.
  destruct (search 0 tid (possibleLocations m)) as [[k|k| |]|]; try contradiction.
  - destruct H as (d & i & -> & H1 & H2 & H3). exists i. cbn. auto.
  - destruct H as (d & i & -> & H1 & H2 & H2' & H3). exists i. cbn. auto.
  - destruct (has_setTrackVolume m); auto.
Qed.

End VolumeDispatchFacts.
